(** * CREST run-time core: instrumentation hooks, symbolic interpreter,
      symbolic memory and execution record.

    The development follows the layering of the repository:

    - [types], [ops]: the enumerations of [base/basic_types.h];
    - [kOpTable] and the [__Crest*] hooks of the instrumentation library
      (the file with the hooks, [pre_symbolic] and [__CrestAtExit]);
    - [SymbolicMemory], [SymbolicInterpreter] and the execution record,
      whose headers are part of the repository but whose bodies are not:
      these are modelled from the specification and marked as such. *)

From Stdlib Require Import ZArith NArith List Lia Bool.
From Stdlib.Strings Require Import Byte.
From stdpp Require Import base option list gmap fin_maps sorting.
Import ListNotations.

Local Open Scope Z_scope.

(** ** base/basic_types.h *)

(** [typedef int id_t; typedef int branch_id_t;
     typedef unsigned int function_id_t; typedef unsigned int var_t;
     typedef long long int value_t; typedef unsigned long int addr_t;] *)
Definition id_t := Z.
Definition branch_id_t := Z.
Definition function_id_t := N.
Definition var_t := N.
Definition value_t := Z.
Definition addr_t := N.

Bind Scope Z_scope with id_t branch_id_t value_t.
Bind Scope N_scope with function_id_t var_t addr_t.

(** Virtual branch ids used to represent function calls and returns. *)
Definition kCallId : branch_id_t := -1.
Definition kReturnId : branch_id_t := -2.

Module ops.

Inductive compare_op_t :=
| EQ | NEQ | GT | LE | LT | GE | S_GT | S_LE | S_LT | S_GE.

Inductive binary_op_t :=
| ADD | SUBTRACT | MULTIPLY
| DIV | S_DIV
| MOD | S_MOD
| SHIFT_L | SHIFT_R | S_SHIFT_R
| BITWISE_AND | BITWISE_OR | BITWISE_XOR
| CONCAT | EXTRACT | CONCRETE.

(** [enum unary_op_t { NEGATE, LOGICAL_NOT, BITWISE_NOT, CAST };] *)
Inductive unary_op_t := NEGATE | LOGICAL_NOT | BITWISE_NOT | CAST.

(** The enumerators of [unary_op_t], in declaration order. *)
Definition unary_ops : list unary_op_t :=
  [NEGATE; LOGICAL_NOT; BITWISE_NOT; CAST].

(** The numeric value C++ gives each enumerator. *)
Definition compare_value (c : compare_op_t) : Z :=
  match c with
  | EQ => 0 | NEQ => 1 | GT => 2 | LE => 3 | LT => 4 | GE => 5
  | S_GT => 6 | S_LE => 7 | S_LT => 8 | S_GE => 9
  end.

Definition binary_value (b : binary_op_t) : Z :=
  match b with
  | ADD => 0 | SUBTRACT => 1 | MULTIPLY => 2
  | DIV => 3 | S_DIV => 4 | MOD => 5 | S_MOD => 6
  | SHIFT_L => 7 | SHIFT_R => 8 | S_SHIFT_R => 9
  | BITWISE_AND => 10 | BITWISE_OR => 11 | BITWISE_XOR => 12
  | CONCAT => 13 | EXTRACT => 14 | CONCRETE => 15
  end.

Definition unary_value (u : unary_op_t) : Z :=
  match u with
  | NEGATE => 0 | LOGICAL_NOT => 1 | BITWISE_NOT => 2 | CAST => 3
  end.

#[global] Instance compare_op_eq_dec : EqDecision compare_op_t.
Proof. solve_decision. Defined.
#[global] Instance binary_op_eq_dec : EqDecision binary_op_t.
Proof. solve_decision. Defined.
#[global] Instance unary_op_eq_dec : EqDecision unary_op_t.
Proof. solve_decision. Defined.

End ops.

Module types.

Inductive type_t :=
| BOOLEAN
| U_CHAR | CHAR
| U_SHORT | SHORT
| U_INT | INT
| U_LONG | LONG
| U_LONG_LONG | LONG_LONG
| STRUCT.

Definition value (t : type_t) : Z :=
  match t with
  | BOOLEAN => -1
  | U_CHAR => 0 | CHAR => 1
  | U_SHORT => 2 | SHORT => 3
  | U_INT => 4 | INT => 5
  | U_LONG => 6 | LONG => 7
  | U_LONG_LONG => 8 | LONG_LONG => 9
  | STRUCT => 10
  end.

#[global] Instance type_eq_dec : EqDecision type_t.
Proof. solve_decision. Defined.

End types.

Abbreviation type_t := types.type_t.

(** ** Operators named by the hooks' operator table

    [kOpTable] is written against the [ops] namespace of the header that
    the instrumentation library includes.  Besides the compare and binary
    enumerators above it names [ops::UNSIGNED_CAST], [ops::SIGNED_CAST] and
    the pointer operators [ops::ADD_PI], [ops::SUBTRACT_PI],
    [ops::SUBTRACT_PP], none of which [basic_types.h] declares. *)
Module xops.

(** Modelled from the spec: the unary operator set of the expression
    representation, "operator ∈ {negate, logical-not, bitwise-not,
    unsigned-cast, signed-cast}"; the declaring header is missing, the
    names are those [kOpTable] uses. *)
Inductive unary_op_t :=
| NEGATE | LOGICAL_NOT | BITWISE_NOT | UNSIGNED_CAST | SIGNED_CAST.

(** Modelled from the spec: the pointer operators "pointer-add,
    pointer-subtract, pointer-diff"; the declaring header is missing, the
    names are those [kOpTable] uses. *)
Inductive pointer_op_t := ADD_PI | SUBTRACT_PI | SUBTRACT_PP.

#[global] Instance unary_op_eq_dec : EqDecision unary_op_t.
Proof. solve_decision. Defined.
#[global] Instance pointer_op_eq_dec : EqDecision pointer_op_t.
Proof. solve_decision. Defined.

(** Modelled from the spec: the values of these enumerators, numbered from
    zero in the order above as C++ numbers the enumerators of an [enum]
    without initialisers (the declaring header is missing). *)
Definition unary_value (u : unary_op_t) : Z :=
  match u with
  | NEGATE => 0 | LOGICAL_NOT => 1 | BITWISE_NOT => 2
  | UNSIGNED_CAST => 3 | SIGNED_CAST => 4
  end.

Definition pointer_value (p : pointer_op_t) : Z :=
  match p with
  | ADD_PI => 0 | SUBTRACT_PI => 1 | SUBTRACT_PP => 2
  end.

(** The enumerator a value of type [pointer_op_t] is the value of, if any:
    a [static_cast] from [int] also gives values that are no
    enumerator's. *)
Definition pointer_of_value (n : Z) : option pointer_op_t :=
  match n with
  | 0 => Some ADD_PI | 1 => Some SUBTRACT_PI | 2 => Some SUBTRACT_PP
  | _ => None
  end.

(** The enumerator of [ops::unary_op_t] that has the same name, when
    [basic_types.h] declares one. *)
Definition declared (u : unary_op_t) : option ops.unary_op_t :=
  match u with
  | NEGATE => Some ops.NEGATE
  | LOGICAL_NOT => Some ops.LOGICAL_NOT
  | BITWISE_NOT => Some ops.BITWISE_NOT
  | UNSIGNED_CAST => None
  | SIGNED_CAST => None
  end.

End xops.

(** An entry of [kOpTable]: the enumerator written in the initialiser,
    tagged with the enumeration it belongs to. *)
Inductive table_op :=
| TBinary (b : ops.binary_op_t)
| TCompare (c : ops.compare_op_t)
| TUnary (u : xops.unary_op_t)
| TPointer (p : xops.pointer_op_t).

#[global] Instance table_op_eq_dec : EqDecision table_op.
Proof. solve_decision. Defined.

(** [static const int kOpTable[]]. *)
Definition kOpTable : list table_op :=
  [ (* binary arithmetic *)
    TBinary ops.ADD; TBinary ops.SUBTRACT; TBinary ops.MULTIPLY;
    TBinary ops.DIV; TBinary ops.S_DIV; TBinary ops.MOD; TBinary ops.S_MOD;
    (* binary bitwise operators *)
    TBinary ops.SHIFT_L; TBinary ops.SHIFT_R; TBinary ops.S_SHIFT_R;
    TBinary ops.BITWISE_AND; TBinary ops.BITWISE_OR; TBinary ops.BITWISE_XOR;
    (* binary comparison *)
    TCompare ops.EQ; TCompare ops.NEQ;
    TCompare ops.GT; TCompare ops.S_GT; TCompare ops.LE; TCompare ops.S_LE;
    TCompare ops.LT; TCompare ops.S_LT; TCompare ops.GE; TCompare ops.S_GE;
    (* unhandled binary operators *)
    TBinary ops.CONCRETE;
    (* unary operators *)
    TUnary xops.NEGATE; TUnary xops.BITWISE_NOT; TUnary xops.LOGICAL_NOT;
    TUnary xops.UNSIGNED_CAST; TUnary xops.SIGNED_CAST;
    (* pointer operators *)
    TPointer xops.ADD_PI; TPointer xops.SUBTRACT_PI; TPointer xops.SUBTRACT_PP
  ].

(** Modelled from the spec: the operator tags of [libcrest/crest.h], which is
    missing ("operator tags enumerate the unary/binary/compare/pointer
    operator sets, plus a sentinel").  A tag indexes [kOpTable], so each tag
    the hooks compare against is placed where the table's initialiser puts
    the operator of the same name. *)
Definition __CREST_OP := Z.
Definition __CREST_ADD : __CREST_OP := 0.
Definition __CREST_EQ : __CREST_OP := 13.
Definition __CREST_S_GEQ : __CREST_OP := 22.
Definition __CREST_CONCRETE : __CREST_OP := 23.
Definition __CREST_NEGATE : __CREST_OP := 24.
Definition __CREST_SIGNED_CAST : __CREST_OP := 28.

(** [kOpTable[op]]; reading outside the array has no defined result. *)
Definition kOpTable_at (op : __CREST_OP) : option table_op :=
  if decide (0 <= op) then kOpTable !! Z.to_nat op else None.

(** The [int] an element of the array holds: the value of the enumerator
    written in the initialiser. *)
Definition entry_value (e : table_op) : Z :=
  match e with
  | TBinary b => ops.binary_value b
  | TCompare c => ops.compare_value c
  | TUnary u => xops.unary_value u
  | TPointer p => xops.pointer_value p
  end.

(** [kOpTable[op]] as the [int] it is. *)
Definition kOpTable_value (op : __CREST_OP) : option Z :=
  entry_value <$> kOpTable_at op.

(** The opcodes [__CrestApply1] accepts, in increasing order. *)
Definition unary_opcodes : list __CREST_OP :=
  seqZ __CREST_NEGATE (__CREST_SIGNED_CAST - __CREST_NEGATE + 1).

(** ** Symbolic expressions *)

(** The operator of a binary node: an arithmetic or bitwise operator, or a
    pointer operator together with the element size the hook passes. *)
Inductive node_op :=
| Bin (b : ops.binary_op_t)
| Ptr (p : xops.pointer_op_t) (elem : N).

(** Modelled from the spec: the expression representation (the bodies of
    [SymbolicExpr] and its subclasses are missing).  The leaf follows the
    constructor [BasicExpr(size_t s, value_t val, var_t var)] of
    [basic_expression.h]; the other nodes follow the data model: a constant
    has a width and a value; a unary or binary node an operator, a result
    width, a concrete value and its children; a compare node an operator, a
    boolean concrete value and two children. *)
Inductive SymbolicExpr :=
| BasicExpr (s : N) (val : value_t) (var : var_t)
| Const (s : N) (val : value_t)
| Unary (op : xops.unary_op_t) (s : N) (val : value_t) (e : SymbolicExpr)
| Binary (op : node_op) (s : N) (val : value_t) (l r : SymbolicExpr)
| Compare (op : ops.compare_op_t) (val : bool) (l r : SymbolicExpr).

#[global] Instance node_op_eq_dec : EqDecision node_op.
Proof. solve_decision. Defined.
#[global] Instance SymbolicExpr_eq_dec : EqDecision SymbolicExpr.
Proof. solve_decision. Defined.

(** [BasicExpr::get_variable] on a leaf; no variable for other nodes. *)
Definition get_variable (e : SymbolicExpr) : option var_t :=
  match e with
  | BasicExpr _ _ v => Some v
  | _ => None
  end.

(** ** Path and execution record *)

(** Modelled from the spec: one entry of the path record's constraint
    sequence (the path class is missing).  Every evaluated branch records
    its identity; the entry carries (expression, taken-direction) when the
    branch value was symbolic and nothing when it was purely concrete. *)
Record PathEntry := mkPathEntry {
  branch : branch_id_t;
  constraint : option (SymbolicExpr * bool)
}.

#[global] Instance PathEntry_eq_dec : EqDecision PathEntry.
Proof. solve_decision. Defined.

(** [path().constraints()]: the constraints proper, in path order. *)
Definition constraints (p : list PathEntry) : list (SymbolicExpr * bool) :=
  omap constraint p.

(** No path entry carries a constraint: only branch identities. *)
Definition identities_only (p : list PathEntry) : Prop :=
  Forall (λ en, constraint en = None) p.

(** Modelled from the spec: the execution record (class [SymbolicExecution]
    is missing): the input vector, the constraint sequence and the final
    symbolic-memory binding set. *)
Record SymbolicExecution := mkExecution {
  inputs : list value_t;
  path : list PathEntry;
  snapshot : gmap addr_t SymbolicExpr
}.

(** ** Byte encoding of the execution record

    Modelled from the spec: [SymbolicExecution::Serialize], the matching
    parser and [SymbolicMemory::Serialize] are declared but their bodies are
    missing.  The record is written as "the input vector (length-prefixed),
    the constraint sequence (length-prefixed list of (serialized-expression,
    taken-direction)), and the final symbolic-memory binding set", the
    bindings sorted by address.  Integers are written in the width of their
    C type, least significant byte first. *)
Module Codec.

Definition parser (A : Type) := list byte → option (A * list byte).

Definition byte_of_N (n : N) : byte := default "000"%byte (Byte.of_N n).

(** [k] bytes of [n], least significant first. *)
Fixpoint put_le (k : nat) (n : N) : list byte :=
  match k with
  | O => []
  | S k => byte_of_N (n `mod` 256)%N :: put_le k (n `div` 256)%N
  end.

Fixpoint le_value (bs : list byte) : N :=
  match bs with
  | [] => 0%N
  | b :: bs => (Byte.to_N b + 256 * le_value bs)%N
  end.

Definition get_le (k : nat) : parser N := λ bs,
  if decide (k ≤ length bs)%nat
  then Some (le_value (take k bs), drop k bs)
  else None.

(** [size_t] and [addr_t]: 8 bytes;  [var_t]: 4 bytes. *)
Definition put_size (n : N) : list byte := put_le 8 n.
Definition get_size : parser N := get_le 8.
Definition put_var (v : var_t) : list byte := put_le 4 v.
Definition get_var : parser var_t := get_le 4.

(** Signed integers in two's complement on [k] bytes. *)
Definition put_signed (k : nat) (v : Z) : list byte :=
  put_le k (Z.to_N (v `mod` 2 ^ (8 * Z.of_nat k))).

Definition get_signed (k : nat) : parser Z := λ bs,
  '(n, rest) ← get_le k bs;
  let z := Z.of_N n in
  Some (if decide (z < 2 ^ (8 * Z.of_nat k - 1)) then z
        else z - 2 ^ (8 * Z.of_nat k), rest).

(** [value_t] is [long long]: 8 bytes;  [branch_id_t] is [int]: 4. *)
Definition put_value (v : value_t) : list byte := put_signed 8 v.
Definition get_value : parser value_t := get_signed 8.
Definition put_branch (b : branch_id_t) : list byte := put_signed 4 b.
Definition get_branch : parser branch_id_t := get_signed 4.

Definition put_bool (b : bool) : list byte :=
  [if b then "001"%byte else "000"%byte].

Definition get_bool : parser bool := λ bs,
  match bs with
  | "000"%byte :: rest => Some (false, rest)
  | "001"%byte :: rest => Some (true, rest)
  | _ => None
  end.

(** Operators are written as the value of their enumerator. *)
Definition unary_code (u : xops.unary_op_t) : N :=
  match u with
  | xops.NEGATE => 0 | xops.LOGICAL_NOT => 1 | xops.BITWISE_NOT => 2
  | xops.UNSIGNED_CAST => 3 | xops.SIGNED_CAST => 4
  end%N.

Definition unary_of_code (n : N) : option xops.unary_op_t :=
  match n with
  | 0 => Some xops.NEGATE | 1 => Some xops.LOGICAL_NOT
  | 2 => Some xops.BITWISE_NOT | 3 => Some xops.UNSIGNED_CAST
  | 4 => Some xops.SIGNED_CAST | _ => None
  end%N.

Definition pointer_code (p : xops.pointer_op_t) : N :=
  match p with
  | xops.ADD_PI => 0 | xops.SUBTRACT_PI => 1 | xops.SUBTRACT_PP => 2
  end%N.

Definition pointer_of_code (n : N) : option xops.pointer_op_t :=
  match n with
  | 0 => Some xops.ADD_PI | 1 => Some xops.SUBTRACT_PI
  | 2 => Some xops.SUBTRACT_PP | _ => None
  end%N.

Definition binary_of_code (n : N) : option ops.binary_op_t :=
  match n with
  | 0 => Some ops.ADD | 1 => Some ops.SUBTRACT | 2 => Some ops.MULTIPLY
  | 3 => Some ops.DIV | 4 => Some ops.S_DIV | 5 => Some ops.MOD
  | 6 => Some ops.S_MOD | 7 => Some ops.SHIFT_L | 8 => Some ops.SHIFT_R
  | 9 => Some ops.S_SHIFT_R | 10 => Some ops.BITWISE_AND
  | 11 => Some ops.BITWISE_OR | 12 => Some ops.BITWISE_XOR
  | 13 => Some ops.CONCAT | 14 => Some ops.EXTRACT | 15 => Some ops.CONCRETE
  | _ => None
  end%N.

Definition compare_of_code (n : N) : option ops.compare_op_t :=
  match n with
  | 0 => Some ops.EQ | 1 => Some ops.NEQ | 2 => Some ops.GT
  | 3 => Some ops.LE | 4 => Some ops.LT | 5 => Some ops.GE
  | 6 => Some ops.S_GT | 7 => Some ops.S_LE | 8 => Some ops.S_LT
  | 9 => Some ops.S_GE | _ => None
  end%N.

Definition put_code (n : N) : list byte := put_le 1 n.

Definition get_code {A} (of_code : N → option A) : parser A := λ bs,
  '(n, rest) ← get_le 1 bs;
  a ← of_code n;
  Some (a, rest).

(** Node tags. *)
Definition tag_basic : N := 0.
Definition tag_const : N := 1.
Definition tag_unary : N := 2.
Definition tag_binary : N := 3.
Definition tag_pointer : N := 4.
Definition tag_compare : N := 5.

(** An expression is written in prefix order. *)
Fixpoint put_expr (e : SymbolicExpr) : list byte :=
  match e with
  | BasicExpr s v x =>
      put_code tag_basic ++ put_size s ++ put_value v ++ put_var x
  | Const s v =>
      put_code tag_const ++ put_size s ++ put_value v
  | Unary op s v e =>
      put_code tag_unary ++ put_code (unary_code op)
        ++ put_size s ++ put_value v ++ put_expr e
  | Binary (Bin op) s v l r =>
      put_code tag_binary ++ put_code (Z.to_N (ops.binary_value op))
        ++ put_size s ++ put_value v ++ put_expr l ++ put_expr r
  | Binary (Ptr op n) s v l r =>
      put_code tag_pointer ++ put_code (pointer_code op) ++ put_size n
        ++ put_size s ++ put_value v ++ put_expr l ++ put_expr r
  | Compare op b l r =>
      put_code tag_compare ++ put_code (Z.to_N (ops.compare_value op))
        ++ put_bool b ++ put_expr l ++ put_expr r
  end.

(** The number of nodes on the longest branch. *)
Fixpoint depth (e : SymbolicExpr) : nat :=
  match e with
  | BasicExpr _ _ _ | Const _ _ => 1
  | Unary _ _ _ e => S (depth e)
  | Binary _ _ _ l r | Compare _ _ l r => S (depth l `max` depth r)
  end.

(** The parser descends once per node; [fuel] bounds the depth. *)
Fixpoint get_expr (fuel : nat) : parser SymbolicExpr := λ bs,
  match fuel with
  | O => None
  | S fuel =>
      '(tag, bs) ← get_le 1 bs;
      if decide (tag = tag_basic) then
        '(s, bs) ← get_size bs; '(v, bs) ← get_value bs;
        '(x, bs) ← get_var bs;
        Some (BasicExpr s v x, bs)
      else if decide (tag = tag_const) then
        '(s, bs) ← get_size bs; '(v, bs) ← get_value bs;
        Some (Const s v, bs)
      else if decide (tag = tag_unary) then
        '(op, bs) ← get_code unary_of_code bs;
        '(s, bs) ← get_size bs; '(v, bs) ← get_value bs;
        '(e, bs) ← get_expr fuel bs;
        Some (Unary op s v e, bs)
      else if decide (tag = tag_binary) then
        '(op, bs) ← get_code binary_of_code bs;
        '(s, bs) ← get_size bs; '(v, bs) ← get_value bs;
        '(l, bs) ← get_expr fuel bs; '(r, bs) ← get_expr fuel bs;
        Some (Binary (Bin op) s v l r, bs)
      else if decide (tag = tag_pointer) then
        '(op, bs) ← get_code pointer_of_code bs;
        '(n, bs) ← get_size bs;
        '(s, bs) ← get_size bs; '(v, bs) ← get_value bs;
        '(l, bs) ← get_expr fuel bs; '(r, bs) ← get_expr fuel bs;
        Some (Binary (Ptr op n) s v l r, bs)
      else if decide (tag = tag_compare) then
        '(op, bs) ← get_code compare_of_code bs;
        '(b, bs) ← get_bool bs;
        '(l, bs) ← get_expr fuel bs; '(r, bs) ← get_expr fuel bs;
        Some (Compare op b l r, bs)
      else None
  end.

(** Every node takes at least one byte, so the length of the input bounds
    the depth of the expression it starts with. *)
Definition parse_expr : parser SymbolicExpr := λ bs,
  get_expr (length bs) bs.

(** A list is written as its length, then its elements. *)
Definition put_list {A} (put : A → list byte) (l : list A) : list byte :=
  put_size (N.of_nat (length l)) ++ concat (put <$> l).

Fixpoint get_items {A} (get : parser A) (n : nat) : parser (list A) :=
  λ bs,
  match n with
  | O => Some ([], bs)
  | S n =>
      '(a, bs) ← get bs;
      '(l, bs) ← get_items get n bs;
      Some (a :: l, bs)
  end.

Definition get_list {A} (get : parser A) : parser (list A) := λ bs,
  '(n, bs) ← get_size bs;
  get_items get (N.to_nat n) bs.

Definition put_entry (p : PathEntry) : list byte :=
  put_branch (branch p) ++
  match constraint p with
  | None => put_bool false
  | Some (e, taken) => put_bool true ++ put_expr e ++ put_bool taken
  end.

Definition get_entry : parser PathEntry := λ bs,
  '(b, bs) ← get_branch bs;
  '(has, bs) ← get_bool bs;
  if has : bool then
    '(e, bs) ← parse_expr bs;
    '(taken, bs) ← get_bool bs;
    Some (mkPathEntry b (Some (e, taken)), bs)
  else Some (mkPathEntry b None, bs).

Definition put_binding (b : addr_t * SymbolicExpr) : list byte :=
  put_size b.1 ++ put_expr b.2.

Definition get_binding : parser (addr_t * SymbolicExpr) := λ bs,
  '(a, bs) ← get_size bs;
  '(e, bs) ← parse_expr bs;
  Some ((a, e), bs).

(** Bindings are ordered by address before they are written. *)
Definition by_address : relation (addr_t * SymbolicExpr) :=
  λ b1 b2, (b1.1 ≤ b2.1)%N.

#[global] Instance by_address_dec b1 b2 : Decision (by_address b1 b2).
Proof. unfold by_address. apply _. Defined.

(** The encoding of the bindings a traversal of the hash map yields, in
    whatever order the traversal visits them. *)
Definition put_bindings (l : list (addr_t * SymbolicExpr)) : list byte :=
  put_list put_binding (merge_sort by_address l).

End Codec.

(** Modelled from the spec: [SymbolicMemory::Serialize] (declared in
    [symbolic_memory.h], body missing): "a stable byte encoding of all live
    bindings", sorted by address. *)
Definition SymbolicMemory_Serialize (m : gmap addr_t SymbolicExpr)
  : list byte :=
  Codec.put_bindings (map_to_list m).

(** Modelled from the spec: [SymbolicExecution::Serialize] (called by
    [__CrestAtExit], body missing): the input vector, the constraint
    sequence and the memory bindings, in this order. *)
Definition Serialize (ex : SymbolicExecution) : list byte :=
  Codec.put_list Codec.put_value (inputs ex)
    ++ Codec.put_list Codec.put_entry (path ex)
    ++ SymbolicMemory_Serialize (snapshot ex).

(** Modelled from the spec: the parser the round-trip property refers to
    (missing from the sources); bytes left over make the input ill-formed. *)
Definition Parse (bs : list byte) : option SymbolicExecution :=
  '(ins, bs) ← Codec.get_list Codec.get_value bs;
  '(p, bs) ← Codec.get_list Codec.get_entry bs;
  '(m, bs) ← Codec.get_list Codec.get_binding bs;
  if decide (bs = []) then Some (mkExecution ins p (list_to_map m))
  else None.

(** ** Bit-blasting *)

(** Modelled from the spec: the solver's terms as far as the spec fixes
    them ("only the contract expression → solver term, addr-indexed is
    specified"): the equality of the memory cell at an address with the
    translation of an expression, and the conjunction of terms.  The
    translation of an expression into the solver's own representation is
    outside the spec; the term keeps the expression. *)
Unset Elimination Schemes.
Set Elimination Schemes.




(** The values a record built by the C++ code can hold: every integer lies
    in the range of its C type and every container length fits [size_t]. *)
Definition in_value (v : value_t) : Prop := - 2 ^ 63 ≤ v < 2 ^ 63.
Definition in_branch (b : branch_id_t) : Prop := - 2 ^ 31 ≤ b < 2 ^ 31.
Definition in_size (n : N) : Prop := (n < 2 ^ 64)%N.
Definition in_var (v : var_t) : Prop := (v < 2 ^ 32)%N.

Fixpoint typed_expr (e : SymbolicExpr) : Prop :=
  match e with
  | BasicExpr s v x => in_size s ∧ in_value v ∧ in_var x
  | Const s v => in_size s ∧ in_value v
  | Unary _ s v e => in_size s ∧ in_value v ∧ typed_expr e
  | Binary op s v l r =>
      match op with Bin _ => True | Ptr _ n => in_size n end ∧
      in_size s ∧ in_value v ∧ typed_expr l ∧ typed_expr r
  | Compare _ _ l r => typed_expr l ∧ typed_expr r
  end.

Definition typed_entry (p : PathEntry) : Prop :=
  in_branch (branch p) ∧
  match constraint p with
  | Some (e, _) => typed_expr e
  | None => True
  end.

Definition typed_binding (b : addr_t * SymbolicExpr) : Prop :=
  in_size b.1 ∧ typed_expr b.2.

Definition typed_execution (ex : SymbolicExecution) : Prop :=
  Forall in_value (inputs ex) ∧ in_size (N.of_nat (length (inputs ex))) ∧
  Forall typed_entry (path ex) ∧ in_size (N.of_nat (length (path ex))) ∧
  Forall typed_binding (map_to_list (snapshot ex)) ∧
  in_size (N.of_nat (size (snapshot ex))).

(** ** Symbolic memory and interpreter *)

(** An evaluation value: a concrete value of some type, with the expression
    it stands for when it is symbolic. *)
Record StackElem := mkStackElem {
  expr : option SymbolicExpr;
  ty : type_t;
  concrete : value_t
}.

(** Modelled from the spec: the state of [SymbolicInterpreter] (class
    missing): the evaluation stack (top first), the call stack of scopes,
    the registered regions, the symbolic memory
    ([hash_map<addr_t, SymbolicExpr*> mem_]), the input vector, the path
    record and the count of inputs issued so far. *)
Record SymbolicInterpreter := mkSI {
  stack_ : list StackElem;
  scopes_ : list function_id_t;
  regions_ : list (addr_t * N);
  mem_ : gmap addr_t SymbolicExpr;
  inputs_ : list value_t;
  path_ : list PathEntry;
  num_inputs_ : nat
}.

(** The operations of the interpreter, one per instrumentation event. *)
Inductive si_op :=
| OAlloc (id : id_t) (addr : addr_t) (size : N)
| OLoad (id : id_t) (addr : addr_t) (t : type_t) (val : value_t)
| ODeref (id : id_t) (addr : addr_t) (t : type_t) (val : value_t)
| OStore (id : id_t) (addr : addr_t)
| OWrite (id : id_t) (addr : addr_t)
| OClearStack (id : id_t)
| OApplyUnaryOp (id : id_t) (op : xops.unary_op_t) (t : type_t)
    (val : value_t)
| OApplyBinaryOp (id : id_t) (op : ops.binary_op_t) (t : type_t)
    (val : value_t)
| OApplyCompareOp (id : id_t) (op : ops.compare_op_t) (t : type_t)
    (val : value_t)
| OApplyBinPtrOp (id : id_t) (op : Z) (size : N) (val : value_t)
| OBranch (id : id_t) (bid : branch_id_t) (taken : bool)
| OCall (id : id_t) (fid : function_id_t)
| OReturn (id : id_t)
| OHandleReturn (id : id_t) (t : type_t) (val : value_t)
| ONewInput (t : type_t) (addr : addr_t).

Definition is_NewInput (o : si_op) : bool :=
  match o with ONewInput _ _ => true | _ => false end.


(** The global state of the instrumentation library:
    [static SymbolicInterpreter* SI; static int pre_symbolic;]. *)
Record globals := mkGlobals {
  SI : SymbolicInterpreter;
  pre_symbolic : Z
}.

(** The calls the instrumented program makes after [__CrestInit]. *)
Inductive event :=
| ERegGlobal (id : id_t) (addr : addr_t) (size : N)
| ELoad (id : id_t) (addr : addr_t) (t : type_t) (val : value_t)
| EDeref (id : id_t) (addr : addr_t) (t : type_t) (val : value_t)
| EStore (id : id_t) (addr : addr_t)
| EWrite (id : id_t) (addr : addr_t)
| EClearStack (id : id_t)
| EApply1 (id : id_t) (op : __CREST_OP) (t : type_t) (val : value_t)
| EApply2 (id : id_t) (op : __CREST_OP) (t : type_t) (val : value_t)
| EPtrApply2 (id : id_t) (op : __CREST_OP) (size : N) (val : value_t)
| EBranch (id : id_t) (bid : branch_id_t) (b : Z)
| ECall (id : id_t) (fid : function_id_t)
| EReturn (id : id_t)
| EHandleReturn (id : id_t) (t : type_t) (val : value_t)
| EUChar (x : addr_t)
| EUShort (x : addr_t)
| EUInt (x : addr_t)
| EChar (x : addr_t)
| EShort (x : addr_t)
| EInt (x : addr_t).

(** The symbolic input functions. *)
Definition is_input (e : event) : bool :=
  match e with
  | EUChar _ | EUShort _ | EUInt _ | EChar _ | EShort _ | EInt _ => true
  | _ => false
  end.

(** C conversions of a [value_t] to an integer type of [bits] bits. *)
Definition to_unsigned (bits : Z) (v : Z) : Z := v `mod` 2 ^ bits.
Definition to_signed (bits : Z) (v : Z) : Z :=
  (v + 2 ^ (bits - 1)) `mod` 2 ^ bits - 2 ^ (bits - 1).

(** [assert(P)]: the process aborts when [P] does not hold. *)
Definition assert (P : Prop) `{Decision P} : option unit :=
  if decide P then Some tt else None.

(** Modelled from the spec: [SI->execution()] (accessor missing): the
    record made of the input vector, the path and the memory as they are
    at exit. *)
Definition execution (si : SymbolicInterpreter) : SymbolicExecution :=
  mkExecution (inputs_ si) (path_ si) (mem_ si).

(** ** Writing the record at exit *)

(** What the system does with the operations of [__CrestAtExit]: whether
    the strings get the memory they ask for ([buff.reserve(1<<26)] above
    all), whether the file can be opened, from how many bytes on the
    library hands a [write] straight to the file instead of its buffer
    (1024 in the [basic_filebuf::xsputn] of libstdc++), how many bytes the
    file takes on such a [write] before it fails ([None]: all of them),
    and how many of the buffered bytes reach the file when [close] flushes
    the buffer before that fails ([None]: all of them). *)
Record io_env := mkEnv {
  enough_memory : bool;
  can_open : bool;
  chunk : nat;
  write_room : option nat;
  flush_room : option nat
}.

(** The bytes that get through, and whether the operation failed. *)
Definition accept (room : option nat) (bs : list byte) : list byte * bool :=
  match room with
  | None => (bs, false)
  | Some n => (take n bs, bool_decide (n < length bs)%nat)
  end.

(** How the exit handler ends, with the contents of [szd_execution]
    ([None]: the file was not created). *)
Inductive outcome :=
| Returned (contents : option (list byte))
| Aborted (contents : option (list byte)).

(** The state of a [std::ofstream]: whether it is open, its failure flag,
    the bytes in its buffer and the contents of the file it is attached to
    ([None]: no file was created). *)
Record ofstream := mkStream {
  is_open : bool;
  failbit : bool;
  buffer : list byte;
  file : option (list byte)
}.

(** [std::ofstream out("szd_execution", std::ios::out | std::ios::binary)]:
    opening truncates the file; a failed open sets the failure flag. *)
Definition ofstream_open (env : io_env) : ofstream :=
  if can_open env then mkStream true false [] (Some [])
  else mkStream false true [] None.

(** [out.write(data, size)]: a stream that has failed takes nothing.
    Data shorter than [chunk] is copied to the buffer, which cannot fail;
    longer data goes straight to the file, after what the buffer holds,
    and the bytes the file takes stay there when the [write] fails. *)
Definition ofstream_write (env : io_env) (data : list byte) (out : ofstream)
  : ofstream :=
  if failbit out then out
  else if decide (length data < chunk env)%nat then
    mkStream (is_open out) false (buffer out ++ data) (file out)
  else
    let '(taken, failed) := accept (write_room env) (buffer out ++ data) in
    mkStream (is_open out) failed (if failed then buffer out else [])
      (option_map (λ old, old ++ taken) (file out)).

(** [out.close()]: the buffer is flushed to the file; a failed flush sets
    the failure flag. *)
Definition ofstream_close (env : io_env) (out : ofstream) : ofstream :=
  if is_open out then
    let '(flushed, failed) := accept (flush_room env) (buffer out) in
    mkStream false (failbit out || failed) []
      (option_map (λ old, old ++ flushed) (file out))
  else mkStream false true (buffer out) (file out).

(** [__CrestAtExit]:
    [const SymbolicExecution& ex = SI->execution(); ...
     string buff; buff.reserve(1<<26); ex.Serialize(&buff);
     std::ofstream out("szd_execution", ...);
     out.write(buff.data(), buff.size()); assert(!out.fail()); out.close();]
    A string that does not get its memory throws [std::bad_alloc], which
    nothing catches: the handler ends there, before the file is opened.
    The assertion looks at the stream after [write]; nothing looks at it
    after [close].  The constraint count and the constraints the handler
    prints first are diagnostics; of them only the memory their strings
    need is kept. *)
Definition __CrestAtExit (env : io_env) (g : globals) : outcome :=
  let ex := execution (SI g) in
  if enough_memory env then
    let buff := Serialize ex in
    let out := ofstream_open env in
    let out := ofstream_write env buff out in
    if failbit out then Aborted (file out)
    else
      let out := ofstream_close env out in
      Returned (file out)
  else Aborted None.

(** ** Reading the input file

    [__CrestInit] reads the file [input] with
    [while (in >> val) input.push_back(val);], [val] being a [value_t]:
    each extraction skips white space, reads an optional sign and the
    longest run of decimal digits, and fails (which ends the loop) when
    there is no digit or the number does not fit [long long]. *)
Module InputFile.

(** [isspace] in the C locale. *)
Definition is_space (c : byte) : bool :=
  let n := Byte.to_N c in
  ((n =? 32) || ((9 <=? n) && (n <=? 13)))%N.

(** The value of a decimal digit. *)
Definition digit_of (c : byte) : option N :=
  let n := Byte.to_N c in
  if ((48 <=? n) && (n <=? 57))%N then Some (n - 48)%N else None.

Definition is_minus (c : byte) : bool := (Byte.to_N c =? 45)%N.
Definition is_plus (c : byte) : bool := (Byte.to_N c =? 43)%N.

Fixpoint skip_space (s : list byte) : list byte :=
  match s with
  | c :: s' => if is_space c then skip_space s' else s
  | [] => []
  end.

(** The longest run of digits at the head of [s], and what follows. *)
Fixpoint digits (s : list byte) : list N * list byte :=
  match s with
  | c :: s' =>
      match digit_of c with
      | Some d => let '(ds, rest) := digits s' in (d :: ds, rest)
      | None => ([], s)
      end
  | [] => ([], [])
  end.

(** The number a run of digits denotes. *)
Definition number (ds : list N) : N :=
  foldl (λ acc d, 10 * acc + d)%N 0%N ds.

(** [in >> val]: the value read and the rest of the stream, or a failed
    extraction. *)
Definition extract (s : list byte) : option (value_t * list byte) :=
  let s := skip_space s in
  let '(neg, s) :=
    match s with
    | c :: s' =>
        if is_minus c then (true, s')
        else if is_plus c then (false, s')
        else (false, s)
    | [] => (false, s)
    end in
  let '(ds, rest) := digits s in
  match ds with
  | [] => None
  | _ :: _ =>
      let v := if neg : bool then - Z.of_N (number ds)
               else Z.of_N (number ds) in
      if decide (in_value v) then Some (v, rest) else None
  end.

(** The loop [while (in >> val) input.push_back(val);].  Every successful
    extraction consumes a byte, so [fuel] need not exceed the length of
    the stream. *)
Fixpoint read_loop (fuel : nat) (s : list byte) : list value_t :=
  match fuel with
  | O => []
  | S fuel =>
      match extract s with
      | Some (v, rest) => v :: read_loop fuel rest
      | None => []
      end
  end.

(** The input vector [__CrestInit] builds from the contents of the file
    [input] ([None]: the file cannot be opened, so no extraction
    succeeds). *)
Definition read_input (file : option (list byte)) : list value_t :=
  match file with
  | None => []
  | Some s => read_loop (length s) s
  end.

(** Decimal notation, used to state what the loop reads; the library
    itself only reads the file. *)
Definition digit_char (d : N) : byte := Codec.byte_of_N (48 + d).

Fixpoint decimal (fuel : nat) (n : N) (acc : list N) : list N :=
  match fuel with
  | O => acc
  | S fuel =>
      if (n <? 10)%N then n :: acc
      else decimal fuel (n `div` 10)%N ((n `mod` 10)%N :: acc)
  end.

Definition decimal_digits (n : N) : list N :=
  decimal (S (N.to_nat (N.log2 n))) n [].

Definition render_value (v : value_t) : list byte :=
  (if decide (v < 0) then ["-"%byte] else [])
    ++ (digit_char <$> decimal_digits (Z.abs_N v)).

(** A file with one value per line. *)
Definition render (vs : list value_t) : list byte :=
  concat ((λ v, render_value v ++ ["010"%byte]) <$> vs).

(** [s] does not go on with a digit. *)
Definition no_digit_ahead (s : list byte) : Prop :=
  match s with
  | c :: _ => digit_of c = None
  | [] => True
  end.

(** The value of a token: a sign and a run of digits. *)
Definition token_value (neg : bool) (ds : list N) : Z :=
  if neg then - Z.of_N (number ds) else Z.of_N (number ds).

Definition sign_bytes (neg : bool) : list byte :=
  if neg then ["-"%byte] else [].

End InputFile.

(** ** Sample data

    A size table, a composite and a few runs, used to exercise the
    statements below on concrete inputs. *)

(** [kSizeOfType] on an LP64 target. *)
Definition lp64_size (t : type_t) : N :=
  match t with
  | types.BOOLEAN | types.U_CHAR | types.CHAR => 1
  | types.U_SHORT | types.SHORT => 2
  | types.U_INT | types.INT => 4
  | types.U_LONG | types.LONG | types.U_LONG_LONG | types.LONG_LONG => 8
  | types.STRUCT => 0
  end%N.

(** A composite that keeps the concrete value of the region only. *)
Definition as_constant (m : gmap addr_t SymbolicExpr) (a : addr_t)
    (t : type_t) (v : value_t) : SymbolicExpr :=
  Const (lp64_size t) v.

Definition sample_leaf : SymbolicExpr := BasicExpr 4%N 7 0%N.

Definition sample_sum : SymbolicExpr :=
  Binary (Bin ops.ADD) 4%N 4 (BasicExpr 4%N 7 0%N) (BasicExpr 4%N (-3) 1%N).



(** Two inputs added and stored, a third input, and a branch on the
    stored sum being non-zero. *)
Definition sample_input_ops : list si_op :=
  [ONewInput types.INT 16%N; OLoad 1 16%N types.INT 7;
   ONewInput types.INT 24%N; OLoad 2 24%N types.INT (-3);
   OApplyBinaryOp 3 ops.ADD types.INT 4; OStore 4 32%N;
   ONewInput types.CHAR 40%N;
   OLoad 5 32%N types.INT 4; OLoad 6 100%N types.INT 0;
   OApplyCompareOp 7 ops.NEQ types.INT 1; OBranch 8 3 true].

(** A branch before the first input, one input, a branch on it. *)
Definition sample_events : list event :=
  [ELoad 1 16%N types.INT 3; EBranch 2 7 1; EInt 16%N;
   ELoad 3 16%N types.INT 7; ELoad 4 24%N types.INT 10;
   EApply2 5 16 types.INT 0; EBranch 6 8 0].

(** Events before any input. *)
Definition sample_pre_events : list event :=
  [ELoad 1 16%N types.INT 3; EApply2 2 0 types.INT 5; EBranch 3 7 1;
   ECall 4 2%N; EStore 5 16%N].

(** A record with two inputs, constraints over compare, binary and unary
    operators, and three bindings. *)
Definition sample_execution : SymbolicExecution :=
  mkExecution [7; -3]
    [ mkPathEntry 5
        (Some (Compare ops.S_GT false sample_leaf (Const 4%N 10), true));
      mkPathEntry kCallId None;
      mkPathEntry 9
        (Some (Compare ops.NEQ true sample_sum (Const 4%N 0), false));
      mkPathEntry 11
        (Some (Unary xops.SIGNED_CAST 1%N 4
                 (Binary (Ptr xops.ADD_PI 4%N) 8%N 4096 (Const 8%N 4092)
                    sample_leaf), true)) ]
    (<[32%N := sample_sum]>
       (<[16%N := sample_leaf]> (<[24%N := BasicExpr 4%N (-3) 1%N]> ∅))).

(** The state at exit of a run that read one input and took no branch. *)
Definition one_input_state : globals :=
  mkGlobals (mkSI [] [] [] (<[16%N := sample_leaf]> ∅) [7] [] 1) 0.

(** The file opens and the stream takes the bytes, but nothing reaches the
    file when [close] flushes the buffer (the device is full). *)
Definition full_at_close : io_env :=
  mkEnv true true 1024 None (Some 0%nat).

Section interpreter.

(** [extern const size_t kSizeOfType[]]: declared in [basic_types.h],
    defined in a missing source file. *)
Variable kSizeOfType : type_t → N.

(** The expression [read] builds for a region that is only partly
    symbolic or whose stored width differs: "some special kind of
    expression" the sources leave open. *)
Variable synthesize :
  gmap addr_t SymbolicExpr → addr_t → type_t → value_t → SymbolicExpr.

(** [Size]: the width of an expression in bytes. *)
Definition Size (e : SymbolicExpr) : N :=
  match e with
  | BasicExpr s _ _ | Const s _ | Unary _ s _ _ | Binary _ s _ _ _ => s
  | Compare _ _ _ _ => kSizeOfType types.BOOLEAN
  end.

(** The bytes a typed access covers: "when ty == types::STRUCT, then val
    is the size of the structure, in bytes". *)
Definition region_size (t : type_t) (val : value_t) : N :=
  if decide (t = types.STRUCT) then Z.to_N val else kSizeOfType t.

(** [[a, a+n)] and [[b, b+m)] have a byte in common. *)
Definition overlaps (a : addr_t) (n : N) (b : addr_t) (m : N) : Prop :=
  (a < b + m ∧ b < a + n)%N.

#[local] Instance overlaps_dec a n b m : Decision (overlaps a n b m).
Proof. unfold overlaps. apply _. Defined.

(** The bindings that lie fully or partly inside [[a, a+n)]. *)
Definition inside (a : addr_t) (n : N) (m : gmap addr_t SymbolicExpr)
  : gmap addr_t SymbolicExpr :=
  filter (λ b, overlaps b.1 (Size b.2) a n) m.

(** Modelled from the spec: [SymbolicMemory::read] (declared in
    [symbolic_memory.h], body missing).  The stored expression when the
    binding at [addr] has the width of the region; no expression (the
    pure constant [val]) when nothing in the region is bound; a composite
    otherwise. *)
Definition read (m : gmap addr_t SymbolicExpr)
    (addr : addr_t) (t : type_t) (val : value_t) : option SymbolicExpr :=
  match m !! addr with
  | Some e =>
      if decide (Size e = region_size t val) then Some e
      else Some (synthesize m addr t val)
  | None =>
      if decide (inside addr (region_size t val) m = ∅) then None
      else Some (synthesize m addr t val)
  end.

(** Modelled from the spec: [SymbolicMemory::write] (body missing): takes
    ownership of [e], replacing any binding at that address. *)
Definition write (m : gmap addr_t SymbolicExpr)
    (addr : addr_t) (t : type_t) (e : SymbolicExpr)
  : gmap addr_t SymbolicExpr :=
  <[addr := e]> m.

(** Modelled from the spec: [SymbolicMemory::concretize] (body missing):
    removes every binding fully or partially inside [[addr, addr+n)]. *)
Definition concretize (m : gmap addr_t SymbolicExpr)
    (addr : addr_t) (n : N) : gmap addr_t SymbolicExpr :=
  filter (λ b, ¬ overlaps b.1 (Size b.2) addr n) m.



(** *** Interpreter state updates *)

Definition set_stack (st : list StackElem) (si : SymbolicInterpreter) :=
  mkSI st (scopes_ si) (regions_ si) (mem_ si) (inputs_ si) (path_ si)
    (num_inputs_ si).

Definition set_mem (m : gmap addr_t SymbolicExpr)
    (si : SymbolicInterpreter) :=
  mkSI (stack_ si) (scopes_ si) (regions_ si) m (inputs_ si) (path_ si)
    (num_inputs_ si).

Definition set_scopes (sc : list function_id_t)
    (si : SymbolicInterpreter) :=
  mkSI (stack_ si) sc (regions_ si) (mem_ si) (inputs_ si) (path_ si)
    (num_inputs_ si).

Definition push_path (p : PathEntry) (si : SymbolicInterpreter) :=
  mkSI (stack_ si) (scopes_ si) (regions_ si) (mem_ si) (inputs_ si)
    (path_ si ++ [p]) (num_inputs_ si).

(** A concrete-only operand wrapped as a constant. *)
Definition operand (se : StackElem) : SymbolicExpr :=
  match expr se with
  | Some e => e
  | None => Const (kSizeOfType (ty se)) (concrete se)
  end.

(** Modelled from the spec: the constructor of [SymbolicInterpreter]
    called by [__CrestInit]: the record is "created at process start from
    the loaded input vector". *)
Definition new_SymbolicInterpreter (input : list value_t) :=
  mkSI [] [] [] ∅ input [] 0.

(** Modelled from the spec: [SymbolicInterpreter::Alloc]: registers a
    region, which has no symbolic content yet. *)
Definition Alloc (id : id_t) (addr : addr_t) (size : N)
    (si : SymbolicInterpreter) : option SymbolicInterpreter :=
  Some (mkSI (stack_ si) (scopes_ si) (regions_ si ++ [(addr, size)])
          (mem_ si) (inputs_ si) (path_ si) (num_inputs_ si)).

(** Modelled from the spec: [SymbolicInterpreter::Load]: pushes the
    result of [memory.read(address, type, value)]. *)
Definition Load (id : id_t) (addr : addr_t) (t : type_t) (val : value_t)
    (si : SymbolicInterpreter) : option SymbolicInterpreter :=
  Some (set_stack (mkStackElem (read (mem_ si) addr t val) t val
                     :: stack_ si) si).

(** Modelled from the spec: [SymbolicInterpreter::Deref]: like [Load],
    but the top of the stack is consumed as the pointer; a symbolic
    pointer makes the result concrete. *)
Definition Deref (id : id_t) (addr : addr_t) (t : type_t) (val : value_t)
    (si : SymbolicInterpreter) : option SymbolicInterpreter :=
  match stack_ si with
  | [] => None
  | p :: rest =>
      let e := match expr p with
               | Some _ => None
               | None => read (mem_ si) addr t val
               end in
      Some (set_stack (mkStackElem e t val :: rest) si)
  end.

(** Modelled from the spec: [SymbolicInterpreter::Store]: consumes the top
    value and writes it to memory; a purely concrete value clears the
    bindings of the region ("callers use concretize to clear bindings"). *)
Definition Store (id : id_t) (addr : addr_t) (si : SymbolicInterpreter)
  : option SymbolicInterpreter :=
  match stack_ si with
  | [] => None
  | se :: rest =>
      let m := match expr se with
               | Some e => write (mem_ si) addr (ty se) e
               | None => concretize (mem_ si) addr
                           (region_size (ty se) (concrete se))
               end in
      Some (set_stack rest (set_mem m si))
  end.

(** Modelled from the spec: [SymbolicInterpreter::Write]: "same transfer
    semantics" as [Store]. *)
Definition Write (id : id_t) (addr : addr_t) (si : SymbolicInterpreter)
  : option SymbolicInterpreter :=
  Store id addr si.

(** Modelled from the spec: [SymbolicInterpreter::ClearStack]. *)
Definition ClearStack (id : id_t) (si : SymbolicInterpreter)
  : option SymbolicInterpreter :=
  Some (set_stack [] si).

(** Modelled from the spec: [SymbolicInterpreter::ApplyUnaryOp]: pops one
    operand; builds a node only when the operand is symbolic. *)
Definition ApplyUnaryOp (id : id_t) (op : xops.unary_op_t) (t : type_t)
    (val : value_t) (si : SymbolicInterpreter)
  : option SymbolicInterpreter :=
  match stack_ si with
  | [] => None
  | a :: rest =>
      let e := match expr a with
               | Some ea => Some (Unary op (kSizeOfType t) val ea)
               | None => None
               end in
      Some (set_stack (mkStackElem e t val :: rest) si)
  end.

(** Both operands of a binary operation, as expressions, when at least
    one of them is symbolic. *)
Definition symbolic_pair (a b : StackElem)
  : option (SymbolicExpr * SymbolicExpr) :=
  match expr a, expr b with
  | None, None => None
  | _, _ => Some (operand a, operand b)
  end.

(** Modelled from the spec: [SymbolicInterpreter::ApplyBinaryOp]: pops two
    operands ([b] on top); the sentinel [CONCRETE] gives a purely concrete
    result. *)
Definition ApplyBinaryOp (id : id_t) (op : ops.binary_op_t) (t : type_t)
    (val : value_t) (si : SymbolicInterpreter)
  : option SymbolicInterpreter :=
  match stack_ si with
  | b :: a :: rest =>
      let e := if decide (op = ops.CONCRETE) then None
               else '(l, r) ← symbolic_pair a b;
                    Some (Binary (Bin op) (kSizeOfType t) val l r) in
      Some (set_stack (mkStackElem e t val :: rest) si)
  | _ => None
  end.

(** Modelled from the spec: [SymbolicInterpreter::ApplyCompareOp]. *)
Definition ApplyCompareOp (id : id_t) (op : ops.compare_op_t) (t : type_t)
    (val : value_t) (si : SymbolicInterpreter)
  : option SymbolicInterpreter :=
  match stack_ si with
  | b :: a :: rest =>
      let e := '(l, r) ← symbolic_pair a b;
               Some (Compare op (bool_decide (val ≠ 0)) l r) in
      Some (set_stack (mkStackElem e t val :: rest) si)
  | _ => None
  end.

(** Modelled from the spec: [SymbolicInterpreter::ApplyBinPtrOp]; the
    result is a pointer ([addr_t] is [unsigned long]).  [op] is the value
    of type [pointer_op_t] the caller passes, as the integer it is; one
    that is no enumerator's value is an unsupported operator code, which is
    fatal ("unsupported operator codes ...: all fatal"). *)
Definition ApplyBinPtrOp (id : id_t) (op : Z) (size : N)
    (val : value_t) (si : SymbolicInterpreter)
  : option SymbolicInterpreter :=
  p ← xops.pointer_of_value op;
  match stack_ si with
  | b :: a :: rest =>
      let e := '(l, r) ← symbolic_pair a b;
               Some (Binary (Ptr p size) (kSizeOfType types.U_LONG)
                       val l r) in
      Some (set_stack (mkStackElem e types.U_LONG val :: rest) si)
  | _ => None
  end.

(** Modelled from the spec: [SymbolicInterpreter::Branch]: exactly one
    evaluation value must be pending; it is popped, and the branch is
    recorded with (expression, taken) when the value is symbolic and with
    its identity alone when it is purely concrete. *)
Definition Branch (id : id_t) (bid : branch_id_t) (taken : bool)
    (si : SymbolicInterpreter) : option SymbolicInterpreter :=
  match stack_ si with
  | [se] =>
      let c := match expr se with
               | Some e => Some (e, taken)
               | None => None
               end in
      Some (push_path (mkPathEntry bid c) (set_stack [] si))
  | _ => None
  end.

(** Modelled from the spec: [SymbolicInterpreter::Call]: opens a scope and
    clears what the caller's statement left on the stack; the call is
    recorded under the virtual branch id [kCallId]. *)
Definition Call (id : id_t) (fid : function_id_t)
    (si : SymbolicInterpreter) : option SymbolicInterpreter :=
  Some (push_path (mkPathEntry kCallId None)
          (set_scopes (fid :: scopes_ si) (set_stack [] si))).

(** Modelled from the spec: [SymbolicInterpreter::Return]: closes the
    innermost scope; the return is recorded under [kReturnId]. *)
Definition Return (id : id_t) (si : SymbolicInterpreter)
  : option SymbolicInterpreter :=
  Some (push_path (mkPathEntry kReturnId None)
          (set_scopes (tail (scopes_ si)) si)).

(** Modelled from the spec: [SymbolicInterpreter::HandleReturn]: the value
    the callee left pending, if any, becomes the caller's evaluation
    value of type [t] and value [val]. *)
Definition HandleReturn (id : id_t) (t : type_t) (val : value_t)
    (si : SymbolicInterpreter) : option SymbolicInterpreter :=
  let e := match stack_ si with
           | se :: _ => expr se
           | [] => None
           end in
  Some (set_stack [mkStackElem e t val] si).

(** Modelled from the spec: [SymbolicInterpreter::NewInput]: consumes the
    next unread slot of the input vector (running out of inputs is
    fatal), binds a fresh leaf whose identifier is the count of inputs
    issued so far to [addr], and returns the concrete value.  The count is
    the number itself; it fits [var_t] while fewer than [2^32] inputs have
    been issued. *)
Definition NewInput (t : type_t) (addr : addr_t)
    (si : SymbolicInterpreter) : option (value_t * SymbolicInterpreter) :=
  val ← inputs_ si !! num_inputs_ si;
  let leaf := BasicExpr (kSizeOfType t) val (N.of_nat (num_inputs_ si)) in
  Some (val,
        mkSI (stack_ si) (scopes_ si) (regions_ si)
          (write (mem_ si) addr t leaf) (inputs_ si) (path_ si)
          (S (num_inputs_ si))).

Definition si_step (o : si_op) (si : SymbolicInterpreter)
  : option SymbolicInterpreter :=
  match o with
  | OAlloc id a n => Alloc id a n si
  | OLoad id a t v => Load id a t v si
  | ODeref id a t v => Deref id a t v si
  | OStore id a => Store id a si
  | OWrite id a => Write id a si
  | OClearStack id => ClearStack id si
  | OApplyUnaryOp id op t v => ApplyUnaryOp id op t v si
  | OApplyBinaryOp id op t v => ApplyBinaryOp id op t v si
  | OApplyCompareOp id op t v => ApplyCompareOp id op t v si
  | OApplyBinPtrOp id op n v => ApplyBinPtrOp id op n v si
  | OBranch id bid taken => Branch id bid taken si
  | OCall id fid => Call id fid si
  | OReturn id => Return id si
  | OHandleReturn id t v => HandleReturn id t v si
  | ONewInput t a => snd <$> NewInput t a si
  end.

(** A sequence of operations; a fatal failure ends the run. *)
Fixpoint si_run (os : list si_op) (si : SymbolicInterpreter)
  : option SymbolicInterpreter :=
  match os with
  | [] => Some si
  | o :: os => si' ← si_step o si; si_run os si'
  end.

(** The variable of the leaf bound at [a]. *)
Definition bound_variable (a : addr_t) (si : SymbolicInterpreter)
  : option var_t :=
  mem_ si !! a ≫= get_variable.

(** The leaf identifiers the fresh-input operations of a run produce, in
    call order: after each [NewInput] the variable bound at its
    address. *)
Fixpoint issued (os : list si_op) (si : SymbolicInterpreter)
  : list (option var_t) :=
  match os with
  | [] => []
  | o :: os =>
      match si_step o si with
      | None => []
      | Some si' =>
          match o with
          | ONewInput _ a => bound_variable a si' :: issued os si'
          | _ => issued os si'
          end
      end
  end.





(** The number of fresh-input operations in a sequence. *)
Definition fresh_inputs (os : list si_op) : nat :=
  length (List.filter is_NewInput os).

(** *** The instrumentation hooks *)

(** [__CrestInit]: reads the input vector from the file [input], creates
    the interpreter, sets [pre_symbolic = 1] and registers [__CrestAtExit]
    to run at exit. *)
Definition __CrestInit (input : list value_t) : globals :=
  mkGlobals (new_SymbolicInterpreter input) 1.

(** A call forwarded to the interpreter. *)
Definition forward (f : SymbolicInterpreter → option SymbolicInterpreter)
    (g : globals) : option globals :=
  si ← f (SI g); Some (mkGlobals si (pre_symbolic g)).

Definition __CrestRegGlobal (id : id_t) (addr : addr_t) (size : N)
    (g : globals) : option globals :=
  forward (Alloc id addr size) g.

Definition __CrestLoad (id : id_t) (addr : addr_t) (t : type_t)
    (val : value_t) (g : globals) : option globals :=
  if decide (pre_symbolic g = 0) then forward (Load id addr t val) g
  else Some g.

Definition __CrestDeref (id : id_t) (addr : addr_t) (t : type_t)
    (val : value_t) (g : globals) : option globals :=
  if decide (pre_symbolic g = 0) then forward (Deref id addr t val) g
  else Some g.

Definition __CrestStore (id : id_t) (addr : addr_t) (g : globals)
  : option globals :=
  if decide (pre_symbolic g = 0) then forward (Store id addr) g
  else Some g.

Definition __CrestWrite (id : id_t) (addr : addr_t) (g : globals)
  : option globals :=
  if decide (pre_symbolic g = 0) then forward (Write id addr) g
  else Some g.

Definition __CrestClearStack (id : id_t) (g : globals) : option globals :=
  if decide (pre_symbolic g = 0) then forward (ClearStack id) g
  else Some g.

Definition __CrestApply1 (id : id_t) (op : __CREST_OP) (t : type_t)
    (val : value_t) (g : globals) : option globals :=
  _ ← assert (__CREST_NEGATE ≤ op ∧ op ≤ __CREST_SIGNED_CAST);
  if decide (pre_symbolic g = 0) then
    match kOpTable_at op with
    | Some (TUnary u) => forward (ApplyUnaryOp id u t val) g
    | _ => None
    end
  else Some g.

Definition __CrestApply2 (id : id_t) (op : __CREST_OP) (t : type_t)
    (val : value_t) (g : globals) : option globals :=
  _ ← assert (__CREST_ADD ≤ op ∧ op ≤ __CREST_CONCRETE);
  if decide (pre_symbolic g ≠ 0) then Some g
  else if decide (__CREST_EQ ≤ op ∧ op ≤ __CREST_S_GEQ) then
    match kOpTable_at op with
    | Some (TCompare c) => forward (ApplyCompareOp id c t val) g
    | _ => None
    end
  else
    match kOpTable_at op with
    | Some (TBinary b) => forward (ApplyBinaryOp id b t val) g
    | _ => None
    end.

(** [__CrestPtrApply2] asserts nothing about [op]: whatever element of
    the array it indexes goes to the interpreter,
    [static_cast<pointer_op_t>] keeping the integer. *)
Definition __CrestPtrApply2 (id : id_t) (op : __CREST_OP) (size : N)
    (val : value_t) (g : globals) : option globals :=
  if decide (pre_symbolic g ≠ 0) then Some g
  else
    k ← kOpTable_value op;
    forward (ApplyBinPtrOp id k size val) g.

Definition __CrestBranch (id : id_t) (bid : branch_id_t) (b : Z)
    (g : globals) : option globals :=
  g ← (if decide (pre_symbolic g ≠ 0)
       then (* Precede the branch with a fake (concrete) load. *)
            forward (Load id 0%N types.CHAR b) g
       else Some g);
  forward (Branch id bid (bool_decide (b ≠ 0))) g.

Definition __CrestCall (id : id_t) (fid : function_id_t) (g : globals)
  : option globals :=
  forward (Call id fid) g.

Definition __CrestReturn (id : id_t) (g : globals) : option globals :=
  forward (Return id) g.

Definition __CrestHandleReturn (id : id_t) (t : type_t) (val : value_t)
    (g : globals) : option globals :=
  if decide (pre_symbolic g = 0) then forward (HandleReturn id t val) g
  else Some g.

(** The symbolic input functions: [pre_symbolic = 0; *x = (T)
    SI->NewInput(type, (addr_t)x);].  The result carries the value stored
    through [x]. *)
Definition input_hook (t : type_t) (conv : Z → Z) (x : addr_t)
    (g : globals) : option (Z * globals) :=
  let g := mkGlobals (SI g) 0 in
  '(v, si) ← NewInput t x (SI g);
  Some (conv v, mkGlobals si (pre_symbolic g)).

Definition __CrestUChar := input_hook types.U_CHAR (to_unsigned 8).
Definition __CrestUShort := input_hook types.U_SHORT (to_unsigned 16).
Definition __CrestUInt := input_hook types.U_INT (to_unsigned 32).
Definition __CrestChar := input_hook types.CHAR (to_signed 8).
Definition __CrestShort := input_hook types.SHORT (to_signed 16).
Definition __CrestInt := input_hook types.INT (to_signed 32).

Definition hook (e : event) (g : globals) : option globals :=
  match e with
  | ERegGlobal id a n => __CrestRegGlobal id a n g
  | ELoad id a t v => __CrestLoad id a t v g
  | EDeref id a t v => __CrestDeref id a t v g
  | EStore id a => __CrestStore id a g
  | EWrite id a => __CrestWrite id a g
  | EClearStack id => __CrestClearStack id g
  | EApply1 id op t v => __CrestApply1 id op t v g
  | EApply2 id op t v => __CrestApply2 id op t v g
  | EPtrApply2 id op n v => __CrestPtrApply2 id op n v g
  | EBranch id bid b => __CrestBranch id bid b g
  | ECall id fid => __CrestCall id fid g
  | EReturn id => __CrestReturn id g
  | EHandleReturn id t v => __CrestHandleReturn id t v g
  | EUChar x => snd <$> __CrestUChar x g
  | EUShort x => snd <$> __CrestUShort x g
  | EUInt x => snd <$> __CrestUInt x g
  | EChar x => snd <$> __CrestChar x g
  | EShort x => snd <$> __CrestShort x g
  | EInt x => snd <$> __CrestInt x g
  end.

(** The instrumented program's calls, in program order; an abort ends the
    run. *)
Fixpoint run (evs : list event) (g : globals) : option globals :=
  match evs with
  | [] => Some g
  | e :: evs => g' ← hook e g; run evs g'
  end.

(** The interpreter operation a hook performs once an input has been read;
    [None] when the assertion of [__CrestApply1] or [__CrestApply2] fails,
    or when [__CrestPtrApply2] indexes outside the array. *)
Definition op_of (e : event) : option si_op :=
  match e with
  | ERegGlobal id a n => Some (OAlloc id a n)
  | ELoad id a t v => Some (OLoad id a t v)
  | EDeref id a t v => Some (ODeref id a t v)
  | EStore id a => Some (OStore id a)
  | EWrite id a => Some (OWrite id a)
  | EClearStack id => Some (OClearStack id)
  | EApply1 id op t v =>
      _ ← assert (__CREST_NEGATE ≤ op ∧ op ≤ __CREST_SIGNED_CAST);
      match kOpTable_at op with
      | Some (TUnary u) => Some (OApplyUnaryOp id u t v)
      | _ => None
      end
  | EApply2 id op t v =>
      _ ← assert (__CREST_ADD ≤ op ∧ op ≤ __CREST_CONCRETE);
      match kOpTable_at op with
      | Some (TCompare c) =>
          if decide (__CREST_EQ ≤ op ∧ op ≤ __CREST_S_GEQ)
          then Some (OApplyCompareOp id c t v) else None
      | Some (TBinary b) =>
          if decide (__CREST_EQ ≤ op ∧ op ≤ __CREST_S_GEQ)
          then None else Some (OApplyBinaryOp id b t v)
      | _ => None
      end
  | EPtrApply2 id op n v =>
      k ← kOpTable_value op; Some (OApplyBinPtrOp id k n v)
  | EBranch id bid b => Some (OBranch id bid (bool_decide (b ≠ 0)))
  | ECall id fid => Some (OCall id fid)
  | EReturn id => Some (OReturn id)
  | EHandleReturn id t v => Some (OHandleReturn id t v)
  | EUChar x => Some (ONewInput types.U_CHAR x)
  | EUShort x => Some (ONewInput types.U_SHORT x)
  | EUInt x => Some (ONewInput types.U_INT x)
  | EChar x => Some (ONewInput types.CHAR x)
  | EShort x => Some (ONewInput types.SHORT x)
  | EInt x => Some (ONewInput types.INT x)
  end.

(** The state in which the hooks keep the interpreter while no input has
    been read: nothing is pending, nothing is bound, and the path holds
    branch identities only. *)
Definition pre_symbolic_state (g : globals) : Prop :=
  pre_symbolic g = 1 ∧ stack_ (SI g) = [] ∧ mem_ (SI g) = ∅ ∧
  identities_only (path_ (SI g)).

(** The hooks that do nothing while [pre_symbolic] is set, given an
    operator the hook's assertion accepts. *)
Definition skipped (e : event) : Prop :=
  match e with
  | ELoad _ _ _ _ | EDeref _ _ _ _ | EStore _ _ | EWrite _ _
  | EClearStack _ | EHandleReturn _ _ _ | EPtrApply2 _ _ _ _ => True
  | EApply1 _ op _ _ => __CREST_NEGATE ≤ op ∧ op ≤ __CREST_SIGNED_CAST
  | EApply2 _ op _ _ => __CREST_ADD ≤ op ∧ op ≤ __CREST_CONCRETE
  | _ => False
  end.

(** The interpreter operations a hook performs, in order, under a given
    value of [pre_symbolic]; [None] when the assertion of [__CrestApply1]
    or [__CrestApply2] fails, or when [__CrestPtrApply2], the flag being
    clear, indexes outside the array.  While the flag is set only
    [__CrestRegGlobal], [__CrestBranch], [__CrestCall], [__CrestReturn]
    and the input functions reach the interpreter, and the branch hook
    precedes its call with the load of the branch's value. *)
Definition calls (pre : Z) (e : event) : option (list si_op) :=
  if decide (pre = 0) then o ← op_of e; Some [o]
  else
    match e with
    | ELoad _ _ _ _ | EDeref _ _ _ _ | EStore _ _ | EWrite _ _
    | EClearStack _ | EHandleReturn _ _ _ | EPtrApply2 _ _ _ _ => Some []
    | EApply1 _ op _ _ =>
        _ ← assert (__CREST_NEGATE ≤ op ∧ op ≤ __CREST_SIGNED_CAST);
        Some []
    | EApply2 _ op _ _ =>
        _ ← assert (__CREST_ADD ≤ op ∧ op ≤ __CREST_CONCRETE);
        Some []
    | EBranch id bid b =>
        Some [OLoad id 0%N types.CHAR b; OBranch id bid (bool_decide (b ≠ 0))]
    | _ => o ← op_of e; Some [o]
    end.

(** The value of [pre_symbolic] after a hook. *)
Definition latch (pre : Z) (e : event) : Z :=
  if is_input e then 0 else pre.

(** The interpreter operations of a whole run. *)
Fixpoint trace (pre : Z) (evs : list event) : option (list si_op) :=
  match evs with
  | [] => Some []
  | e :: evs =>
      os ← calls pre e;
      rest ← trace (latch pre e) evs;
      Some (os ++ rest)
  end.

(** The operations every hook call forwards, whatever the flag. *)
Definition unconditional (o : si_op) : bool :=
  match o with
  | OAlloc _ _ _ | OBranch _ _ _ | OCall _ _ | OReturn _ | ONewInput _ _ =>
      true
  | _ => false
  end.

(** The integer types of the input functions: signedness and width. *)
Definition c_range (signed : bool) (bits : Z) (r : Z) : Prop :=
  if signed then - 2 ^ (bits - 1) ≤ r < 2 ^ (bits - 1)
  else 0 ≤ r < 2 ^ bits.

(** Two hook calls that differ at most in a branch value of the same
    truth ([static_cast<bool>(b)]), or in the operator of
    [__CrestPtrApply2] where the array holds the same integer
    ([static_cast<pointer_op_t>(kOpTable[op])]). *)
Definition same_call (e1 e2 : event) : Prop :=
  match e1, e2 with
  | EBranch id1 bid1 b1, EBranch id2 bid2 b2 =>
      id1 = id2 ∧ bid1 = bid2 ∧ (b1 ≠ 0 ↔ b2 ≠ 0)
  | EPtrApply2 id1 op1 n1 v1, EPtrApply2 id2 op2 n2 v2 =>
      id1 = id2 ∧ n1 = n2 ∧ v1 = v2 ∧
      kOpTable_value op1 = kOpTable_value op2
  | _, _ => e1 = e2
  end.

(** * Properties *)

(** ** Symbolic memory *)


Lemma read_empty a t v : read ∅ a t v = None.
Proof.
  unfold read, inside. rewrite lookup_empty, map_filter_empty.
  by destruct (decide _).
Qed.





(** ** Branch *)

Lemma constraints_app p q :
  constraints (p ++ q) = constraints p ++ constraints q.
Proof. unfold constraints. apply omap_app. Qed.

(** C1: [Branch] succeeds exactly when one evaluation value is pending;
    it pops that value and appends one entry to the path: the pair
    (expression, taken) when the value carries an expression, the branch
    identity alone when it is purely concrete.  With any other number of
    pending values the operation is fatal. *)
Theorem Branch_spec id bid taken si :
  match Branch id bid taken si with
  | Some si' =>
      ∃ se, stack_ si = [se] ∧ stack_ si' = [] ∧
        mem_ si' = mem_ si ∧
        path_ si' =
          path_ si ++ [mkPathEntry bid ((λ e, (e, taken)) <$> expr se)] ∧
        constraints (path_ si') =
          constraints (path_ si) ++
            match expr se with Some e => [(e, taken)] | None => [] end
  | None => length (stack_ si) ≠ 1%nat
  end.
Proof.
  unfold Branch. destruct (stack_ si) as [|se [|se' rest]] eqn:Hst; simpl;
    [lia| |lia].
  exists se. split_and!; try done.
  rewrite constraints_app. f_equal. by destruct (expr se).
Qed.

(** ** Concrete-only runs *)

Lemma identities_only_snoc p bid :
  identities_only p → identities_only (p ++ [mkPathEntry bid None]).
Proof. intros Hp. apply Forall_app. split; [done|]. by repeat constructor. Qed.

Lemma identities_only_constraints p :
  identities_only p → constraints p = [].
Proof.
  unfold constraints. induction 1 as [|en p Hen _ IH]; simpl; [done|].
  by rewrite Hen.
Qed.






(** ** Fresh inputs *)

Lemma NewInput_issues t a si v si' :
  NewInput t a si = Some (v, si') →
  num_inputs_ si' = S (num_inputs_ si) ∧
  bound_variable a si' = Some (N.of_nat (num_inputs_ si)) ∧
  inputs_ si !! num_inputs_ si = Some v.
Proof.
  unfold NewInput. intros H.
  destruct (inputs_ si !! num_inputs_ si) as [w|] eqn:Hw; simplify_eq/=.
  split_and!; [done| |done].
  unfold bound_variable, write; simpl. by rewrite lookup_insert_eq.
Qed.

Lemma si_step_num_inputs o si si' :
  is_NewInput o = false → si_step o si = Some si' →
  num_inputs_ si' = num_inputs_ si.
Proof.
  intros Ho Hstep.
  destruct o; simpl in Hstep; try discriminate Ho;
    unfold Alloc, Load, Deref, Write, Store, ClearStack, ApplyUnaryOp,
      ApplyBinaryOp, ApplyCompareOp, ApplyBinPtrOp, Branch, Call, Return,
      HandleReturn in Hstep;
    repeat match type of Hstep with
    | context [xops.pointer_of_value ?k] =>
        destruct (xops.pointer_of_value k); simplify_eq/=
    | context [match ?l with [] => _ | _ :: _ => _ end] =>
        destruct l; simplify_eq/=
    end; by simplify_eq/=.
Qed.

Lemma issued_from os : ∀ si si',
  si_run os si = Some si' →
  issued os si =
    (λ n, Some (N.of_nat n)) <$> seq (num_inputs_ si) (fresh_inputs os) ∧
  num_inputs_ si' = (num_inputs_ si + fresh_inputs os)%nat.
Proof.
  unfold fresh_inputs.
  induction os as [|o os IH]; intros si si' Hrun; simpl in Hrun.
  - simplify_eq. simpl. split; [done|lia].
  - destruct (si_step o si) as [si1|] eqn:Hstep; [|done]. simpl in Hrun.
    destruct (IH _ _ Hrun) as [Hiss Hnum].
    simpl issued. rewrite Hstep.
    destruct (is_NewInput o) eqn:Ho.
    + destruct o; try discriminate Ho. simpl in Hstep.
      destruct (NewInput t addr si) as [[v si2]|] eqn:Hnew; simplify_eq/=.
      apply NewInput_issues in Hnew as (Hn & Hb & _).
      rewrite Hb, Hiss, Hnum, Hn. split; [done|lia].
    + rewrite (si_step_num_inputs _ _ _ Ho Hstep) in Hiss, Hnum.
      simpl List.filter. rewrite Ho.
      split; [|done]. by destruct o.
Qed.

(** C3: a run containing [N] fresh-input operations, interleaved with any
    other operations, produces the leaf identifiers [0, 1, ..., N-1] in
    call order; they are pairwise distinct, and the next identifier to be
    issued is [N]. *)
Theorem identifiers_in_call_order input os si' :
  si_run os (new_SymbolicInterpreter input) = Some si' →
  issued os (new_SymbolicInterpreter input) =
    (λ n, Some (N.of_nat n)) <$> seq 0 (fresh_inputs os) ∧
  NoDup (issued os (new_SymbolicInterpreter input)) ∧
  num_inputs_ si' = fresh_inputs os.
Proof.
  intros Hrun. destruct (issued_from _ _ _ Hrun) as [Hiss Hnum].
  simpl in Hiss, Hnum. split_and!; [done| |done].
  rewrite Hiss. apply NoDup_fmap_2; [|apply NoDup_seq].
  intros n1 n2 ?. simplify_eq. lia.
Qed.

(** ** The pre-symbolic latch *)

Lemma forward_Some f g g' :
  forward f g = Some g' →
  ∃ si, f (SI g) = Some si ∧ g' = mkGlobals si (pre_symbolic g).
Proof.
  unfold forward. destruct (f (SI g)) as [si|]; intros; simplify_eq/=.
  by exists si.
Qed.

(** Every hook leaves [pre_symbolic] alone, except the input functions,
    which clear it. *)
Lemma hook_pre_symbolic e g g' :
  hook e g = Some g' →
  pre_symbolic g' = if is_input e then 0 else pre_symbolic g.
Proof.
  intros H.
  destruct e; simpl in *;
    unfold __CrestRegGlobal, __CrestLoad, __CrestDeref, __CrestStore,
      __CrestWrite, __CrestClearStack, __CrestApply1, __CrestApply2,
      __CrestPtrApply2, __CrestBranch, __CrestCall, __CrestReturn,
      __CrestHandleReturn, __CrestUChar, __CrestUShort, __CrestUInt,
      __CrestChar, __CrestShort, __CrestInt, input_hook, assert in H;
    repeat case_decide; simplify_option_eq;
    repeat match goal with
    | H : forward _ _ = Some _ |- _ =>
        apply forward_Some in H as (? & ? & ->)
    | H : context [match ?x with _ => _ end] |- _ => destruct x eqn:?
    end; simplify_option_eq; try done.
Qed.

Lemma run_pre_symbolic evs : ∀ g g',
  run evs g = Some g' →
  pre_symbolic g' =
    if existsb is_input evs then 0
    else pre_symbolic g.
Proof.
  induction evs as [|e evs IH]; intros g g' Hrun; simpl in Hrun.
  - by simplify_eq.
  - destruct (hook e g) as [g1|] eqn:Hh; [|done]. simpl in Hrun.
    rewrite (IH _ _ Hrun), (hook_pre_symbolic _ _ _ Hh). simpl.
    by destruct (is_input e), (existsb is_input evs).
Qed.

Lemma init_pre_symbolic_state input :
  pre_symbolic_state (__CrestInit input).
Proof. split_and!; try done. constructor. Qed.

(** While [pre_symbolic] is set the branch hook pushes one concrete value
    and the interpreter's [Branch] takes it. *)
Lemma branch_pre_symbolic id bid b g :
  pre_symbolic_state g →
  ∃ si1 si2,
    Load id 0%N types.CHAR b (SI g) = Some si1 ∧
    stack_ si1 = [mkStackElem None types.CHAR b] ∧
    Branch id bid (bool_decide (b ≠ 0)) si1 = Some si2 ∧
    __CrestBranch id bid b g = Some (mkGlobals si2 (pre_symbolic g)) ∧
    stack_ si2 = [] ∧ mem_ si2 = mem_ (SI g) ∧
    path_ si2 = path_ (SI g) ++ [mkPathEntry bid None].
Proof.
  intros (Hpre & Hst & Hm & Hp).
  eexists _, _. split; [reflexivity|].
  unfold __CrestBranch, forward, Load, Branch. simpl.
  rewrite Hst, Hm, read_empty, Hpre. simpl.
  by split_and!.
Qed.

Lemma hook_pre_symbolic_state e g g' :
  pre_symbolic_state g → is_input e = false → hook e g = Some g' →
  pre_symbolic_state g'.
Proof.
  intros Hg He Hh.
  destruct e; try discriminate He; simpl in Hh;
    try (destruct (branch_pre_symbolic id bid b g Hg)
           as (si1 & si2 & _ & _ & _ & Hb & Hst2 & Hm2 & Hp2);
         rewrite Hb in Hh; simplify_eq;
         destruct Hg as (Hpre & Hst & Hm & Hp);
         split_and!; simpl; try congruence;
         rewrite Hp2; by apply identities_only_snoc);
    destruct Hg as (Hpre & Hst & Hm & Hp);
    unfold __CrestRegGlobal, __CrestLoad, __CrestDeref, __CrestStore,
      __CrestWrite, __CrestClearStack, __CrestApply1, __CrestApply2,
      __CrestPtrApply2, __CrestCall, __CrestReturn,
      __CrestHandleReturn, assert, forward, Alloc, Call, Return in Hh;
    rewrite ?Hpre in Hh; repeat case_decide; simplify_option_eq;
    try done;
    split_and!; simpl; auto using identities_only_snoc.
Qed.

Lemma run_pre_symbolic_state evs : ∀ g g',
  pre_symbolic_state g → existsb is_input evs = false →
  run evs g = Some g' → pre_symbolic_state g'.
Proof.
  induction evs as [|e evs IH]; intros g g' Hg Hev Hrun; simpl in *.
  - by simplify_eq.
  - apply orb_false_iff in Hev as [He Hev].
    destruct (hook e g) as [g1|] eqn:Hh; [|done]. simpl in Hrun.
    eapply IH; [|done..]. by eapply hook_pre_symbolic_state.
Qed.

Lemma skipped_hook e g :
  pre_symbolic g ≠ 0 → skipped e → hook e g = Some g.
Proof.
  intros Hpre He.
  destruct e; simpl in He; try done; simpl;
    unfold __CrestLoad, __CrestDeref, __CrestStore, __CrestWrite,
      __CrestClearStack, __CrestApply1, __CrestApply2, __CrestPtrApply2,
      __CrestHandleReturn, assert;
    repeat case_decide; simpl; try done; tauto.
Qed.

(** C5: the pre-symbolic regime is a one-way latch.  After
    [__CrestInit], [pre_symbolic] is set exactly as long as the program
    has called no symbolic input function: whatever was called before,
    and whatever is called after, once an input function has run the flag
    is clear.  While it is set the path record holds branch identities
    only and no constraint. *)
Theorem pre_symbolic_latch input evs g :
  run evs (__CrestInit input) = Some g →
  pre_symbolic g = (if existsb is_input evs then 0 else 1) ∧
  (existsb is_input evs = false →
     identities_only (path_ (SI g)) ∧ constraints (path_ (SI g)) = []).
Proof.
  intros Hrun. split.
  - by rewrite (run_pre_symbolic _ _ _ Hrun).
  - intros Hev.
    destruct (run_pre_symbolic_state evs _ _
                (init_pre_symbolic_state input) Hev Hrun)
      as (_ & _ & _ & Hp).
    split; [done|]. by apply identities_only_constraints.
Qed.

(** C10: while [pre_symbolic] is still set, the branch hook first pushes
    one concrete evaluation value, the [CHAR] load of the branch's value
    at address 0, and then calls the interpreter's [Branch], which finds
    exactly that value pending and records the branch identity alone;
    this holds although the load, store, dereference, write, clear-stack,
    apply and handle-return hooks do nothing in this regime. *)
Theorem branch_hook_pre_symbolic input evs g :
  run evs (__CrestInit input) = Some g →
  pre_symbolic g ≠ 0 →
  stack_ (SI g) = [] ∧
  (∀ e, skipped e → hook e g = Some g) ∧
  ∀ id bid b, ∃ si1 si2,
    Load id 0%N types.CHAR b (SI g) = Some si1 ∧
    stack_ si1 = [mkStackElem None types.CHAR b] ∧
    Branch id bid (bool_decide (b ≠ 0)) si1 = Some si2 ∧
    __CrestBranch id bid b g = Some (mkGlobals si2 (pre_symbolic g)) ∧
    stack_ si2 = [] ∧
    path_ si2 = path_ (SI g) ++ [mkPathEntry bid None].
Proof.
  intros Hrun Hpre.
  assert (Hev : existsb is_input evs = false).
  { pose proof (run_pre_symbolic _ _ _ Hrun) as H.
    destruct (existsb is_input evs); [done|done]. }
  pose proof (run_pre_symbolic_state evs _ _
                (init_pre_symbolic_state input) Hev Hrun) as Hg.
  split_and!.
  - by destruct Hg as (_ & ? & _).
  - intros e He. by apply skipped_hook.
  - intros id bid b.
    destruct (branch_pre_symbolic id bid b g Hg)
      as (si1 & si2 & ? & ? & ? & ? & ? & ? & ?).
    by exists si1, si2.
Qed.

(** ** The hooks after the first input *)

(** Once [pre_symbolic] is clear every hook is the interpreter operation of
    the same name, applied to the operator the table gives. *)
Lemma hook_symbolic e g :
  pre_symbolic g = 0 →
  hook e g = o ← op_of e; forward (si_step o) g.
Proof.
  intros Hpre.
  destruct e; simpl;
    unfold __CrestRegGlobal, __CrestLoad, __CrestDeref, __CrestStore,
      __CrestWrite, __CrestClearStack, __CrestApply1, __CrestApply2,
      __CrestPtrApply2, __CrestBranch, __CrestCall, __CrestReturn,
      __CrestHandleReturn, __CrestUChar, __CrestUShort, __CrestUInt,
      __CrestChar, __CrestShort, __CrestInt, input_hook, assert, forward,
      kOpTable_value;
    rewrite ?Hpre; simpl;
    repeat (case_decide; simpl; try done; try lia);
    try (destruct (kOpTable_at op) as [[]|]; simpl; try done;
         repeat (case_decide; simpl; try done; tauto));
    try (destruct (NewInput _ x (SI g)) as [[v si]|]; simpl;
         by rewrite ?Hpre);
    by rewrite ?Hpre.
Qed.

(** So a run of hooks after the first input is the run of the interpreter
    on the corresponding operations. *)
Lemma run_symbolic evs : ∀ g os,
  pre_symbolic g = 0 → mapM op_of evs = Some os →
  run evs g = forward (si_run os) g.
Proof.
  induction evs as [|e evs IH]; intros g os Hpre Hos; simpl in Hos.
  - injection Hos as <-. destruct g as [si pre]. simpl in Hpre. by subst.
  - destruct (op_of e) as [o|] eqn:Ho; [|done]. simpl in Hos.
    destruct (mapM op_of evs) as [os'|] eqn:Hos'; [|done].
    injection Hos as <-. simpl run.
    rewrite (hook_symbolic e g Hpre), Ho. simpl.
    unfold forward. simpl.
    destruct (si_step o (SI g)) as [si1|]; simpl; [|done].
    by rewrite (IH (mkGlobals si1 (pre_symbolic g)) os' Hpre eq_refl).
Qed.

(** ** The hooks as interpreter calls *)

Lemma si_run_app os1 os2 si :
  si_run (os1 ++ os2) si = si' ← si_run os1 si; si_run os2 si'.
Proof.
  revert si. induction os1 as [|o os1 IH]; intros si; simpl; [done|].
  destruct (si_step o si) as [si1|]; simpl; [apply IH|done].
Qed.

Lemma hook_calls e g :
  hook e g =
    os ← calls (pre_symbolic g) e;
    si ← si_run os (SI g);
    Some (mkGlobals si (latch (pre_symbolic g) e)).
Proof.
  unfold calls. case_decide as Hpre.
  - rewrite (hook_symbolic e g Hpre).
    destruct (op_of e) as [o|]; simpl; [|done].
    unfold forward, latch. rewrite Hpre.
    destruct (si_step o (SI g)); simpl; [|done]. by destruct (is_input e).
  - destruct g as [si pre]. simpl in Hpre.
    destruct e; simpl;
      unfold __CrestRegGlobal, __CrestLoad, __CrestDeref, __CrestStore,
        __CrestWrite, __CrestClearStack, __CrestApply1, __CrestApply2,
        __CrestPtrApply2, __CrestBranch, __CrestCall, __CrestReturn,
        __CrestHandleReturn, __CrestUChar, __CrestUShort, __CrestUInt,
        __CrestChar, __CrestShort, __CrestInt, input_hook, assert, forward,
        latch;
      simpl;
      repeat (case_decide; simpl; try done);
      repeat match goal with
      | |- context [match ?x with _ => _ end] => destruct x; simpl; try done
      end.
  all: try done.
  all: try by match goal with
          | |- context [Branch ?i ?b ?t ?s] => destruct (Branch i b t s)
          | |- context [NewInput ?t ?a ?s] =>
              destruct (NewInput t a s) as [[]|]
          end.
Qed.

(** X5: every run of hooks is the run of the interpreter on the operations
    the hooks perform, one regime after the other, and ends with the flag
    the input functions leave.  It has no result when an assertion of
    [__CrestApply1] or [__CrestApply2] fails, when [__CrestPtrApply2],
    the flag being clear, reads outside the array, or when the interpreter
    fails. *)
Theorem run_trace evs : ∀ g,
  run evs g =
    os ← trace (pre_symbolic g) evs;
    si ← si_run os (SI g);
    Some (mkGlobals si (foldl latch (pre_symbolic g) evs)).
Proof.
  induction evs as [|e evs IH]; intros g; simpl.
  - by destruct g.
  - rewrite hook_calls.
    destruct (calls (pre_symbolic g) e) as [os1|]; simpl; [|done].
    destruct (si_run os1 (SI g)) as [si1|] eqn:H1; simpl.
    + rewrite IH. simpl.
      destruct (trace (latch (pre_symbolic g) e) evs) as [os2|]; simpl;
        [|done].
      by rewrite si_run_app, H1.
    + destruct (trace (latch (pre_symbolic g) e) evs) as [os2|]; simpl;
        [|done].
      by rewrite si_run_app, H1.
Qed.

Lemma calls_unconditional pre e os :
  calls pre e = Some os →
  List.filter unconditional os
  = List.filter unconditional (option_list (op_of e)).
Proof.
  unfold calls. case_decide.
  - destruct (op_of e); intros; by simplify_eq/=.
  - destruct e; simpl; unfold assert; intros;
      repeat case_decide; simplify_option_eq; try done;
      repeat match goal with
      | |- context [kOpTable_value ?x] =>
          destruct (kOpTable_value x); simpl; try done
      | |- context [match ?x with _ => _ end] => destruct x; simpl; try done
      end.
Qed.

(** X6: registrations, branches, calls, returns and inputs reach the
    interpreter whatever the flag says, in program order and with their
    arguments: of these operations a run's trace holds exactly those of its
    hook calls. *)
Theorem unconditional_calls evs : ∀ pre os,
  trace pre evs = Some os →
  List.filter unconditional os
  = List.filter unconditional (omap op_of evs).
Proof.
  induction evs as [|e evs IH]; intros pre os Htr; simpl in Htr.
  - by simplify_eq.
  - destruct (calls pre e) as [os1|] eqn:Hc; [|done]. simpl in Htr.
    destruct (trace (latch pre e) evs) as [os2|] eqn:Ht; [|done].
    simplify_eq/=. rewrite List.filter_app.
    rewrite (calls_unconditional _ _ _ Hc), (IH _ _ Ht).
    destruct (op_of e); simpl; [|done].
    by destruct (unconditional _).
Qed.

(** ** The values the input functions store *)

Lemma to_unsigned_spec bits v :
  0 < bits →
  c_range false bits (to_unsigned bits v) ∧
  (to_unsigned bits v - v) `mod` 2 ^ bits = 0 ∧
  (c_range false bits v → to_unsigned bits v = v).
Proof.
  intros Hb. unfold c_range, to_unsigned.
  assert (0 < 2 ^ bits) by (apply Z.pow_pos_nonneg; lia).
  pose proof (Z.mod_pos_bound v (2 ^ bits)) as Hm.
  split; [lia|]. split.
  - pose proof (Z.div_mod v (2 ^ bits)) as Hd.
    replace (v `mod` 2 ^ bits - v)
      with (- (v `div` 2 ^ bits) * 2 ^ bits) by lia.
    apply Z.mod_mul. lia.
  - intros Hv. by apply Z.mod_small.
Qed.

Lemma to_signed_spec bits v :
  0 < bits →
  c_range true bits (to_signed bits v) ∧
  (to_signed bits v - v) `mod` 2 ^ bits = 0 ∧
  (c_range true bits v → to_signed bits v = v).
Proof.
  intros Hb. unfold c_range, to_signed.
  assert (Hpow : 2 ^ bits = 2 * 2 ^ (bits - 1)).
  { rewrite <- Z.pow_succ_r by lia. f_equal. lia. }
  assert (0 < 2 ^ (bits - 1)) by (apply Z.pow_pos_nonneg; lia).
  pose proof (Z.mod_pos_bound (v + 2 ^ (bits - 1)) (2 ^ bits)) as Hm.
  split; [lia|]. split.
  - pose proof (Z.div_mod (v + 2 ^ (bits - 1)) (2 ^ bits)) as Hd.
    replace ((v + 2 ^ (bits - 1)) `mod` 2 ^ bits - 2 ^ (bits - 1) - v)
      with (- ((v + 2 ^ (bits - 1)) `div` 2 ^ bits) * 2 ^ bits) by lia.
    apply Z.mod_mul. lia.
  - intros Hv. rewrite Z.mod_small by lia. lia.
Qed.

(** X10: each input function clears the flag and stores through its pointer
    the interpreter's value converted to the pointee's type: a value of that
    type's range that differs from the interpreter's by a multiple of
    [2^bits], hence the interpreter's value itself when that fits the type,
    and another one when it does not. *)
Theorem input_hooks_convert x g :
  Forall (λ '(h, t, signed, bits),
            ∀ r g', h x g = Some (r, g') →
              pre_symbolic g' = 0 ∧ c_range signed bits r ∧
              ∃ v, NewInput t x (SI g) = Some (v, SI g') ∧
                   (r - v) `mod` 2 ^ bits = 0 ∧
                   (c_range signed bits v ↔ r = v))
    [(__CrestUChar, types.U_CHAR, false, 8);
     (__CrestUShort, types.U_SHORT, false, 16);
     (__CrestUInt, types.U_INT, false, 32);
     (__CrestChar, types.CHAR, true, 8);
     (__CrestShort, types.SHORT, true, 16);
     (__CrestInt, types.INT, true, 32)].
Proof.
  repeat (apply Forall_cons; split); [..|by constructor];
    cbv beta iota; intros r g';
    unfold __CrestUChar, __CrestUShort, __CrestUInt, __CrestChar,
      __CrestShort, __CrestInt, input_hook; simpl;
    destruct (NewInput _ x (SI g)) as [[v si]|]; simpl; try done;
    intros; simplify_eq/=;
    match goal with
    | |- context [to_unsigned ?b v] =>
        destruct (to_unsigned_spec b v ltac:(lia)) as (Hr & Hm & Hid)
    | |- context [to_signed ?b v] =>
        destruct (to_signed_spec b v ltac:(lia)) as (Hr & Hm & Hid)
    end;
    (split; [done|]); (split; [done|]); exists v;
    (split; [done|]); (split; [done|]);
    (split; [done|by intros <-]).
Qed.

End interpreter.

(** ** The unary operators *)

Lemma unary_ops_complete (u : ops.unary_op_t) : u ∈ ops.unary_ops.
Proof. destruct u; unfold ops.unary_ops; set_solver. Qed.

Lemma unary_ops_NoDup : NoDup ops.unary_ops.
Proof.
  apply (bool_decide_unpack (NoDup ops.unary_ops)). vm_compute. exact I.
Qed.

(** The unary section of the table: the entries at the opcodes
    [__CrestApply1] accepts. *)
Lemma unary_section :
  kOpTable_at <$> unary_opcodes =
    Some <$> [TUnary xops.NEGATE; TUnary xops.BITWISE_NOT;
              TUnary xops.LOGICAL_NOT; TUnary xops.UNSIGNED_CAST;
              TUnary xops.SIGNED_CAST].
Proof. reflexivity. Qed.

(** C8, as the sources have it: [unary_op_t] of [basic_types.h] has exactly
    the four enumerators negate, logical-not, bitwise-not and one cast; the
    operator table maps the five unary opcodes, in order, to the five
    pairwise distinct operators negate, bitwise-not, logical-not,
    unsigned-cast and signed-cast, the two casts being different entries,
    and of these five only the first three are enumerators that
    [basic_types.h] declares. *)
Theorem unary_operators :
  (∀ u : ops.unary_op_t, u ∈ ops.unary_ops) ∧
  NoDup ops.unary_ops ∧ length ops.unary_ops = 4%nat ∧
  (∀ op, __CREST_NEGATE ≤ op ≤ __CREST_SIGNED_CAST →
     ∃ u, kOpTable_at op = Some (TUnary u)) ∧
  (∀ op1 op2,
     __CREST_NEGATE ≤ op1 ≤ __CREST_SIGNED_CAST →
     __CREST_NEGATE ≤ op2 ≤ __CREST_SIGNED_CAST →
     kOpTable_at op1 = kOpTable_at op2 → op1 = op2) ∧
  kOpTable_at <$> unary_opcodes =
    Some <$> [TUnary xops.NEGATE; TUnary xops.BITWISE_NOT;
              TUnary xops.LOGICAL_NOT; TUnary xops.UNSIGNED_CAST;
              TUnary xops.SIGNED_CAST] ∧
  xops.declared xops.UNSIGNED_CAST = None ∧
  xops.declared xops.SIGNED_CAST = None.
Proof.
  assert (Hcases : ∀ op, __CREST_NEGATE ≤ op ≤ __CREST_SIGNED_CAST →
            op = 24 ∨ op = 25 ∨ op = 26 ∨ op = 27 ∨ op = 28).
  { unfold __CREST_NEGATE, __CREST_SIGNED_CAST. lia. }
  split_and!; try done.
  - apply unary_ops_complete.
  - apply unary_ops_NoDup.
  - intros op Hop.
    destruct (Hcases op Hop) as [->|[->|[->|[->| ->]]]]; by eexists.
  - intros op1 op2 H1 H2.
    destruct (Hcases op1 H1) as [->|[->|[->|[->| ->]]]];
      destruct (Hcases op2 H2) as [->|[->|[->|[->| ->]]]];
      vm_compute; congruence.
Qed.

(** C8, as the claim has it, fails on [basic_types.h]: the five operators
    of the claim cannot all be different enumerators of [unary_op_t], which
    has four. *)
Lemma unary_operators_not_five :
  ¬ ∃ f : xops.unary_op_t → ops.unary_op_t, Inj (=) (=) f.
Proof.
  intros [f Hf].
  assert (Hnd : NoDup (f <$> [xops.NEGATE; xops.LOGICAL_NOT;
                              xops.BITWISE_NOT; xops.UNSIGNED_CAST;
                              xops.SIGNED_CAST])).
  { apply (NoDup_fmap_2 f).
    apply (bool_decide_unpack (NoDup [xops.NEGATE; xops.LOGICAL_NOT;
      xops.BITWISE_NOT; xops.UNSIGNED_CAST; xops.SIGNED_CAST])).
    vm_compute. exact I. }
  assert (Hsub : f <$> [xops.NEGATE; xops.LOGICAL_NOT; xops.BITWISE_NOT;
                        xops.UNSIGNED_CAST; xops.SIGNED_CAST]
                 ⊆ ops.unary_ops).
  { intros u _. apply unary_ops_complete. }
  pose proof (submseteq_length _ _ (NoDup_submseteq _ _ Hnd
    (λ u Hu, Hsub u Hu))) as Hlen.
  simpl in Hlen. lia.
Qed.

(** ** The operator table and the hooks' casts *)

(** Every operator [__CrestApply2] accepts is cast to the enumeration its
    table entry belongs to: the comparison range holds compare operators,
    the rest of the accepted range binary operators. *)
Lemma Apply2_table_entries (op : __CREST_OP) :
  __CREST_ADD ≤ op ≤ __CREST_CONCRETE →
  if decide (__CREST_EQ ≤ op ∧ op ≤ __CREST_S_GEQ)
  then ∃ c, kOpTable_at op = Some (TCompare c)
  else ∃ b, kOpTable_at op = Some (TBinary b).
Proof.
  unfold __CREST_ADD, __CREST_CONCRETE, __CREST_EQ, __CREST_S_GEQ.
  intros Hop.
  assert (Hcases : ∃ n : nat, (n ≤ 23)%nat ∧ op = Z.of_nat n).
  { exists (Z.to_nat op). lia. }
  destruct Hcases as (n & Hn & ->).
  do 24 (destruct n as [|n]; [case_decide; try lia; by eexists|]). lia.
Qed.

Lemma kOpTable_at_domain op :
  is_Some (kOpTable_at op) ↔ 0 ≤ op ≤ 31.
Proof.
  unfold kOpTable_at. case_decide.
  - rewrite lookup_lt_is_Some. change (length kOpTable) with 32%nat. lia.
  - split; [by intros []|lia].
Qed.

Lemma kOpTable_at_index op :
  0 ≤ op ≤ 31 → ∃ n : nat, (n < 32)%nat ∧ op = Z.of_nat n.
Proof. intros Hop. exists (Z.to_nat op). lia. Qed.

Lemma kOpTable_NoDup : NoDup kOpTable.
Proof. apply (bool_decide_unpack (NoDup kOpTable)). vm_compute. exact I. Qed.

Lemma kOpTable_at_inj op1 op2 t :
  kOpTable_at op1 = Some t → kOpTable_at op2 = Some t → op1 = op2.
Proof.
  unfold kOpTable_at. intros H1 H2. repeat case_decide; try done.
  pose proof (NoDup_lookup _ _ _ _ kOpTable_NoDup H1 H2). lia.
Qed.

Lemma kOpTable_at_pointer op :
  (∃ p, kOpTable_at op = Some (TPointer p)) ↔ 29 ≤ op ≤ 31.
Proof.
  split.
  - intros [p Hp].
    assert (Hdom : 0 ≤ op ≤ 31) by (by apply kOpTable_at_domain).
    destruct (kOpTable_at_index op Hdom) as (n & Hn & ->).
    do 29 (destruct n as [|n]; [by vm_compute in Hp|]). lia.
  - intros Hop.
    assert (op = 29 ∨ op = 30 ∨ op = 31) as [->|[->| ->]] by lia;
      by eexists.
Qed.

Lemma kOpTable_at_unary op :
  __CREST_NEGATE ≤ op ≤ __CREST_SIGNED_CAST →
  ∃ u, kOpTable_at op = Some (TUnary u).
Proof.
  unfold __CREST_NEGATE, __CREST_SIGNED_CAST. intros Hop.
  assert (op = 24 ∨ op = 25 ∨ op = 26 ∨ op = 27 ∨ op = 28)
    as [->|[->|[->|[->| ->]]]] by lia; by eexists.
Qed.

(** X7: the operators the hooks accept. [__CrestApply1] and [__CrestApply2]
    go on exactly for the operators of their assertion, whether the flag is
    set or not, and for each of these the table holds an operator of the
    enumeration the hook casts to. [__CrestPtrApply2] asserts nothing: while
    the flag is set it returns for any operator, and after that it goes on
    for every operator that indexes the array, of whatever enumeration the
    element is, and hands the interpreter the integer the array holds. *)
Theorem operator_acceptance pre id op t v n :
  (is_Some (calls pre (EApply1 id op t v))
   ↔ __CREST_NEGATE ≤ op ≤ __CREST_SIGNED_CAST) ∧
  (is_Some (calls pre (EApply2 id op t v))
   ↔ __CREST_ADD ≤ op ≤ __CREST_CONCRETE) ∧
  (pre ≠ 0 → calls pre (EPtrApply2 id op n v) = Some []) ∧
  (0 ≤ op ≤ 31 →
   ∃ e, kOpTable_at op = Some e ∧
        calls 0 (EPtrApply2 id op n v)
        = Some [OApplyBinPtrOp id (entry_value e) n v]).
Proof.
  assert (H1 : is_Some (op_of (EApply1 id op t v))
               ↔ __CREST_NEGATE ≤ op ≤ __CREST_SIGNED_CAST).
  { unfold op_of, assert.
    destruct (decide (__CREST_NEGATE ≤ op ∧ op ≤ __CREST_SIGNED_CAST))
      as [Hr|Hr]; cbn [mbind option_bind].
    - destruct (kOpTable_at_unary op Hr) as [u ->]. by split; [|eexists].
    - split; [by intros []|done]. }
  assert (H2 : is_Some (op_of (EApply2 id op t v))
               ↔ __CREST_ADD ≤ op ≤ __CREST_CONCRETE).
  { unfold op_of, assert.
    destruct (decide (__CREST_ADD ≤ op ∧ op ≤ __CREST_CONCRETE))
      as [Hr|Hr]; cbn [mbind option_bind].
    - pose proof (Apply2_table_entries op Hr) as Hop.
      destruct (decide (__CREST_EQ ≤ op ∧ op ≤ __CREST_S_GEQ));
        destruct Hop as [c ->]; by split; [|eexists].
    - split; [by intros []|done]. }
  assert (Hone : ∀ e, is_Some (o ← op_of e; Some [o]) ↔ is_Some (op_of e)).
  { intros e. destruct (op_of e); simpl; split; (by intros []) || by eexists. }
  split_and!.
  - unfold calls. destruct (decide (pre = 0)); [by rewrite Hone|].
    unfold assert.
    destruct (decide (__CREST_NEGATE ≤ op ∧ op ≤ __CREST_SIGNED_CAST));
      simpl; split; try done; (by intros []) || by eexists.
  - unfold calls. destruct (decide (pre = 0)); [by rewrite Hone|].
    unfold assert.
    destruct (decide (__CREST_ADD ≤ op ∧ op ≤ __CREST_CONCRETE));
      simpl; split; try done; (by intros []) || by eexists.
  - intros Hpre. unfold calls. by rewrite decide_False.
  - intros Hop. apply kOpTable_at_domain in Hop as [e He].
    exists e. split; [done|].
    unfold calls, op_of, kOpTable_value. by rewrite He.
Qed.

(** X8: what the translation of the hooks' arguments loses.  Two hook
    calls that are the same interpreter operation are the same call, up to
    a branch value of the same truth and up to an operator of
    [__CrestPtrApply2] for which the array holds the same integer, as it
    does for the opcodes of [ADD] and [EQ], both 0 in [basic_types.h]. *)
Theorem op_of_injective e1 e2 o :
  op_of e1 = Some o → op_of e2 = Some o → same_call e1 e2.
Proof.
  intros H1 H2.
  destruct e1, e2; simpl in *; unfold assert in *;
    repeat case_decide; simplify_option_eq; try done;
    repeat match goal with
    | H : context [match kOpTable_at ?x with _ => _ end] |- _ =>
        destruct (kOpTable_at x) as [[]|] eqn:?; try done
    end;
    repeat case_decide; simplify_eq; try done;
    try (f_equal; eapply kOpTable_at_inj; eassumption).
Qed.

(** X9: what the hooks can ask of the interpreter. Every compare operator
    and every pointer operator is reached by an opcode, and so is every
    binary operator but [CONCAT] and [EXTRACT], which no opcode gives: the
    instrumentation never asks for them. *)
Theorem operators_reached id t v n :
  (∀ c, ∃ op, op_of (EApply2 id op t v) = Some (OApplyCompareOp id c t v)) ∧
  (∀ b, (∃ op, op_of (EApply2 id op t v) = Some (OApplyBinaryOp id b t v))
        ↔ b ≠ ops.CONCAT ∧ b ≠ ops.EXTRACT) ∧
  (∀ p, ∃ op, op_of (EPtrApply2 id op n v)
              = Some (OApplyBinPtrOp id (xops.pointer_value p) n v)) ∧
  (∀ u, ∃ op, op_of (EApply1 id op t v) = Some (OApplyUnaryOp id u t v)).
Proof.
  split_and!.
  - intros c.
    exists (default 0 (list_find (λ x, x = TCompare c) kOpTable
                         ≫= λ '(i, _), Some (Z.of_nat i))).
    by destruct c.
  - intros b. split.
    + intros [op Hop]. unfold op_of, assert in Hop.
      destruct (decide (__CREST_ADD ≤ op ∧ op ≤ __CREST_CONCRETE))
        as [Hr|]; [|done].
      cbn [mbind option_bind] in Hop.
      destruct (kOpTable_at op) as [[b'| | |]|] eqn:Hat; try done;
        [|by case_decide].
      case_decide; [done|]. simplify_eq.
      split; intros ->.
      * assert (Hin : TBinary ops.CONCAT ∈ kOpTable).
        { unfold kOpTable_at in Hat. case_decide; [|done].
          by eapply list_elem_of_lookup_2. }
        revert Hin. apply (bool_decide_unpack (_ ∉ _)). vm_compute. exact I.
      * assert (Hin : TBinary ops.EXTRACT ∈ kOpTable).
        { unfold kOpTable_at in Hat. case_decide; [|done].
          by eapply list_elem_of_lookup_2. }
        revert Hin. apply (bool_decide_unpack (_ ∉ _)). vm_compute. exact I.
    + intros [H1 H2].
      exists (default 0 (list_find (λ x, x = TBinary b) kOpTable
                           ≫= λ '(i, _), Some (Z.of_nat i))).
      by destruct b.
  - intros p.
    exists (default 0 (list_find (λ x, x = TPointer p) kOpTable
                         ≫= λ '(i, _), Some (Z.of_nat i))).
    by destruct p.
  - intros u.
    exists (default 0 (list_find (λ x, x = TUnary u) kOpTable
                         ≫= λ '(i, _), Some (Z.of_nat i))).
    by destruct u.
Qed.

(** ** Writing the record at exit *)

(** Strings that do not get their memory, a stream that could not be
    opened, or a [write] the file did not take in full, end the handler
    in an abort. *)
Lemma write_failure_aborts env g :
  enough_memory env = false ∨ can_open env = false ∨
  (∃ n, write_room env = Some n ∧
        (chunk env ≤ length (Serialize (execution (SI g))))%nat ∧
        (n < length (Serialize (execution (SI g))))%nat) →
  ∃ f, __CrestAtExit env g = Aborted f.
Proof.
  unfold __CrestAtExit, ofstream_open, ofstream_write, accept.
  generalize (Serialize (execution (SI g))). intros buff.
  intros [Hmem|[Hopen|(n & Hroom & Hc & Hn)]].
  - rewrite Hmem. by eexists.
  - destruct (enough_memory env); [|by eexists].
    rewrite Hopen. simpl. by eexists.
  - destruct (enough_memory env); [|by eexists].
    destruct (can_open env); simpl; [|by eexists].
    case_decide; [lia|]. rewrite Hroom. simpl.
    rewrite bool_decide_eq_true_2 by done. by eexists.
Qed.

(** ** The byte encoding *)

Module CodecFacts.
Import Codec.

Lemma byte_of_N_value n : (n < 256)%N → Byte.to_N (byte_of_N n) = n.
Proof.
  intros Hn. unfold byte_of_N.
  destruct (Byte.of_N n) as [b|] eqn:Hb; simpl.
  - by apply Byte.to_of_N.
  - apply Byte.of_N_None_iff in Hb. lia.
Qed.

Lemma length_put_le k : ∀ n, length (put_le k n) = k.
Proof. induction k as [|k IH]; intros n; simpl; [done|]. by rewrite IH. Qed.

Lemma le_value_put_le k : ∀ n,
  (n < 256 ^ N.of_nat k)%N → le_value (put_le k n) = n.
Proof.
  induction k as [|k IH]; intros n Hn.
  - simpl in *. lia.
  - rewrite Nat2N.inj_succ, N.pow_succ_r' in Hn. simpl.
    rewrite byte_of_N_value by (apply N.mod_lt; lia).
    rewrite IH.
    + pose proof (N.div_mod n 256). lia.
    + apply N.Div0.div_lt_upper_bound. lia.
Qed.

Lemma get_le_put k n rest :
  (n < 256 ^ N.of_nat k)%N →
  get_le k (put_le k n ++ rest) = Some (n, rest).
Proof.
  intros Hn. unfold get_le.
  rewrite decide_True by (rewrite length_app, length_put_le; lia).
  rewrite take_app_length', drop_app_length'
    by (by rewrite length_put_le).
  by rewrite le_value_put_le.
Qed.

Lemma get_size_put n rest :
  in_size n → get_size (put_size n ++ rest) = Some (n, rest).
Proof. intros Hn. by apply get_le_put. Qed.

Lemma get_var_put x rest :
  in_var x → get_var (put_var x ++ rest) = Some (x, rest).
Proof. intros Hx. by apply get_le_put. Qed.

Lemma get_signed_put k v rest :
  (0 < k)%nat →
  - 2 ^ (8 * Z.of_nat k - 1) ≤ v < 2 ^ (8 * Z.of_nat k - 1) →
  get_signed k (put_signed k v ++ rest) = Some (v, rest).
Proof.
  intros Hk Hv. unfold get_signed, put_signed.
  set (M := 2 ^ (8 * Z.of_nat k)).
  assert (HM : M = 2 * 2 ^ (8 * Z.of_nat k - 1)).
  { unfold M. rewrite <- Z.pow_succ_r by lia. f_equal. lia. }
  assert (Hmod : 0 ≤ v `mod` M < M) by (apply Z.mod_pos_bound; lia).
  rewrite get_le_put; simpl.
  - rewrite Z2N.id by lia. f_equal. f_equal.
    destruct (decide (0 ≤ v)) as [Hpos|Hneg].
    + rewrite Z.mod_small by lia. by rewrite decide_True by lia.
    + assert (v `mod` M = v + M) as ->.
      { symmetry. apply (Z.mod_unique v M (-1)); lia. }
      rewrite decide_False by lia. lia.
  - apply N2Z.inj_lt. rewrite Z2N.id by lia.
    rewrite N2Z.inj_pow, nat_N_Z. change (Z.of_N 256) with (2 ^ 8).
    rewrite <- Z.pow_mul_r by lia. apply Hmod.
Qed.

Lemma get_value_put v rest :
  in_value v → get_value (put_value v ++ rest) = Some (v, rest).
Proof. intros Hv. apply get_signed_put; [lia|exact Hv]. Qed.

Lemma get_branch_put b rest :
  in_branch b → get_branch (put_branch b ++ rest) = Some (b, rest).
Proof. intros Hb. apply get_signed_put; [lia|exact Hb]. Qed.

Lemma get_bool_put b rest : get_bool (put_bool b ++ rest) = Some (b, rest).
Proof. by destruct b. Qed.

Lemma get_code_put {A} (code : A → N) (of_code : N → option A) a rest :
  (code a < 256)%N → of_code (code a) = Some a →
  get_code of_code (put_code (code a) ++ rest) = Some (a, rest).
Proof.
  intros Hlt Hof. unfold get_code, put_code.
  rewrite get_le_put by done. simpl. by rewrite Hof.
Qed.

Lemma get_unary_put op rest :
  get_code unary_of_code (put_code (unary_code op) ++ rest)
  = Some (op, rest).
Proof. apply (get_code_put unary_code); by destruct op. Qed.

Lemma get_pointer_put op rest :
  get_code pointer_of_code (put_code (pointer_code op) ++ rest)
  = Some (op, rest).
Proof. apply (get_code_put pointer_code); by destruct op. Qed.

Lemma get_binary_put op rest :
  get_code binary_of_code
    (put_code (Z.to_N (ops.binary_value op)) ++ rest)
  = Some (op, rest).
Proof.
  apply (get_code_put (λ op, Z.to_N (ops.binary_value op)));
    by destruct op.
Qed.

Lemma get_compare_put op rest :
  get_code compare_of_code
    (put_code (Z.to_N (ops.compare_value op)) ++ rest)
  = Some (op, rest).
Proof.
  apply (get_code_put (λ op, Z.to_N (ops.compare_value op)));
    by destruct op.
Qed.

End CodecFacts.

Module ExprCodec.
Import Codec CodecFacts.

Lemma get_expr_step fuel bs :
  get_expr (S fuel) bs =
    '(tag, bs) ← get_le 1 bs;
    if decide (tag = tag_basic) then
      '(s, bs) ← get_size bs; '(v, bs) ← get_value bs;
      '(x, bs) ← get_var bs;
      Some (BasicExpr s v x, bs)
    else if decide (tag = tag_const) then
      '(s, bs) ← get_size bs; '(v, bs) ← get_value bs;
      Some (Const s v, bs)
    else if decide (tag = tag_unary) then
      '(op, bs) ← get_code unary_of_code bs;
      '(s, bs) ← get_size bs; '(v, bs) ← get_value bs;
      '(e, bs) ← get_expr fuel bs;
      Some (Unary op s v e, bs)
    else if decide (tag = tag_binary) then
      '(op, bs) ← get_code binary_of_code bs;
      '(s, bs) ← get_size bs; '(v, bs) ← get_value bs;
      '(l, bs) ← get_expr fuel bs; '(r, bs) ← get_expr fuel bs;
      Some (Binary (Bin op) s v l r, bs)
    else if decide (tag = tag_pointer) then
      '(op, bs) ← get_code pointer_of_code bs;
      '(n, bs) ← get_size bs;
      '(s, bs) ← get_size bs; '(v, bs) ← get_value bs;
      '(l, bs) ← get_expr fuel bs; '(r, bs) ← get_expr fuel bs;
      Some (Binary (Ptr op n) s v l r, bs)
    else if decide (tag = tag_compare) then
      '(op, bs) ← get_code compare_of_code bs;
      '(b, bs) ← get_bool bs;
      '(l, bs) ← get_expr fuel bs; '(r, bs) ← get_expr fuel bs;
      Some (Compare op b l r, bs)
    else None.
Proof. reflexivity. Qed.

Lemma get_tag_put tag rest :
  (tag < 256)%N → get_le 1 (put_code tag ++ rest) = Some (tag, rest).
Proof. intros Htag. by apply get_le_put. Qed.

Lemma bind_Some {A B} (x : A) (f : A → option B) : Some x ≫= f = f x.
Proof. reflexivity. Qed.

(** Reads back one field written in front of the rest of the input. *)
Ltac read_field :=
  rewrite <- ?app_assoc;
  first
    [ rewrite get_size_put by tauto
    | rewrite get_value_put by tauto
    | rewrite get_var_put by tauto
    | rewrite get_unary_put
    | rewrite get_binary_put
    | rewrite get_pointer_put
    | rewrite get_compare_put
    | rewrite get_bool_put ];
  rewrite bind_Some; cbv beta iota.

(** Reads back the node tag and selects its case of the parser. *)
Ltac read_tag :=
  rewrite <- ?app_assoc; rewrite get_tag_put by done;
  rewrite bind_Some; cbv beta iota;
  repeat (rewrite decide_False by done); rewrite decide_True by done.

(** Reads back a child by the induction hypothesis [IH]. *)
Ltac read_child IH :=
  rewrite <- ?app_assoc; rewrite IH by (tauto || lia);
  rewrite bind_Some; cbv beta iota.

Lemma get_expr_put e : ∀ fuel rest,
  typed_expr e → (depth e ≤ fuel)%nat →
  get_expr fuel (put_expr e ++ rest) = Some (e, rest).
Proof.
  induction e as [s v x|s v|op s v e IH|op s v l IHl r IHr|op b l IHl r IHr];
    intros fuel rest Hty Hd; (destruct fuel as [|fuel]; [simpl in Hd; lia|]);
    rewrite get_expr_step; simpl in Hty, Hd.
  - cbn [put_expr]. read_tag. by do 3 read_field.
  - cbn [put_expr]. read_tag. by do 2 read_field.
  - cbn [put_expr]. read_tag. do 3 read_field. by read_child IH.
  - destruct op as [op|op n]; cbn [put_expr]; read_tag.
    + do 3 read_field. read_child IHl. by read_child IHr.
    + do 4 read_field. read_child IHl. by read_child IHr.
  - cbn [put_expr]. read_tag. do 2 read_field.
    read_child IHl. by read_child IHr.
Qed.

Lemma depth_put_expr e : (depth e ≤ length (put_expr e))%nat.
Proof.
  induction e as [s v x|s v|op s v e IH|op s v l IHl r IHr|op b l IHl r IHr];
    try destruct op; cbn [depth put_expr];
    rewrite ?length_app; unfold put_code; rewrite ?length_put_le; lia.
Qed.

Lemma parse_expr_put e rest :
  typed_expr e → parse_expr (put_expr e ++ rest) = Some (e, rest).
Proof.
  intros Hty. unfold parse_expr. apply get_expr_put; [done|].
  rewrite length_app. pose proof (depth_put_expr e). lia.
Qed.

End ExprCodec.

Module RecordCodec.
Import Codec CodecFacts ExprCodec.

Lemma get_items_put {A} (P : A → Prop) (put : A → list byte)
    (get : parser A) :
  (∀ a rest, P a → get (put a ++ rest) = Some (a, rest)) →
  ∀ l rest, Forall P l →
    get_items get (length l) (concat (put <$> l) ++ rest) = Some (l, rest).
Proof.
  intros Hget l rest Hl.
  induction Hl as [|a l Ha _ IH]; [done|].
  rewrite fmap_cons, concat_cons. cbn [length get_items].
  rewrite <- app_assoc, Hget by done. rewrite bind_Some. cbv beta iota.
  by rewrite IH.
Qed.

Lemma get_list_put {A} (P : A → Prop) (put : A → list byte)
    (get : parser A) l rest :
  (∀ a rest, P a → get (put a ++ rest) = Some (a, rest)) →
  in_size (N.of_nat (length l)) → Forall P l →
  get_list get (put_list put l ++ rest) = Some (l, rest).
Proof.
  intros Hget Hlen Hl. unfold get_list, put_list.
  rewrite <- app_assoc, get_size_put by done. simpl.
  rewrite Nat2N.id. by apply (get_items_put P).
Qed.

Lemma get_entry_put p rest :
  typed_entry p → get_entry (put_entry p ++ rest) = Some (p, rest).
Proof.
  destruct p as [b c]. intros [Hb Hc]. simpl in Hb, Hc.
  unfold get_entry, put_entry. simpl branch. simpl constraint.
  rewrite <- app_assoc, get_branch_put by done. rewrite bind_Some.
  destruct c as [[e taken]|].
  - rewrite <- !app_assoc, get_bool_put, bind_Some. cbv beta iota.
    rewrite parse_expr_put by done. rewrite bind_Some. cbv beta iota.
    by rewrite get_bool_put.
  - by rewrite get_bool_put.
Qed.

Lemma get_binding_put b rest :
  typed_binding b → get_binding (put_binding b ++ rest) = Some (b, rest).
Proof.
  destruct b as [a e]. intros [Ha He]. simpl in Ha, He.
  unfold get_binding, put_binding. cbn [fst snd].
  rewrite <- app_assoc, get_size_put by done. rewrite bind_Some.
  cbv beta iota. by rewrite parse_expr_put.
Qed.

#[local] Instance by_address_total : Total by_address.
Proof. intros b1 b2. unfold by_address. lia. Qed.

#[local] Instance by_address_trans : Transitive by_address.
Proof. intros b1 b2 b3. unfold by_address. lia. Qed.



Lemma sorted_bindings_to_map (m : gmap addr_t SymbolicExpr) :
  list_to_map (merge_sort by_address (map_to_list m)) = m.
Proof.
  rewrite <- (list_to_map_to_list m) at 2.
  apply list_to_map_proper.
  - rewrite merge_sort_Permutation. apply NoDup_fst_map_to_list.
  - apply merge_sort_Permutation.
Qed.

Lemma get_bindings_put (m : gmap addr_t SymbolicExpr) rest :
  Forall typed_binding (map_to_list m) →
  in_size (N.of_nat (size m)) →
  get_list get_binding (SymbolicMemory_Serialize m ++ rest)
  = Some (merge_sort by_address (map_to_list m), rest).
Proof.
  intros Hty Hsize. unfold SymbolicMemory_Serialize, put_bindings.
  apply (get_list_put typed_binding).
  - intros b rest'. apply get_binding_put.
  - by rewrite merge_sort_Permutation, length_map_to_list.
  - by rewrite merge_sort_Permutation.
Qed.

Lemma Parse_Serialize ex :
  typed_execution ex → Parse (Serialize ex) = Some ex.
Proof.
  destruct ex as [ins p m].
  intros (Hins & Hnins & Hp & Hnp & Hm & Hnm). simpl in *.
  unfold Parse, Serialize. simpl inputs. simpl path. simpl snapshot.
  rewrite (get_list_put in_value) by (done || apply get_value_put).
  rewrite bind_Some. cbv beta iota.
  rewrite (get_list_put typed_entry) by (done || apply get_entry_put).
  rewrite bind_Some. cbv beta iota.
  rewrite <- (app_nil_r (SymbolicMemory_Serialize m)).
  rewrite get_bindings_put by done.
  rewrite bind_Some. cbv beta iota.
  rewrite decide_True by done.
  by rewrite sorted_bindings_to_map.
Qed.

End RecordCodec.





(** C2: parsing the serialisation of an execution record gives the record
    back, and serialising what was parsed gives the same bytes again; this
    holds for every record whose integers lie in the ranges of their C
    types, whatever its constraints and their operators. *)
Theorem serialization_round_trip ex :
  typed_execution ex →
  Parse (Serialize ex) = Some ex ∧
  ∀ ex', Parse (Serialize ex) = Some ex' → Serialize ex' = Serialize ex.
Proof.
  intros Hty. pose proof (RecordCodec.Parse_Serialize ex Hty) as Hrt.
  split; [done|]. intros ex' Hex'. congruence.
Qed.

(** ** The statements on sample data *)

(** The example of the specification: one 4-byte signed input compared
    with the constant 10 and branched on. *)
Example one_input_compared :
  (λ g, (pre_symbolic g, constraints (path_ (SI g)))) <$>
    run lp64_size as_constant sample_events (__CrestInit [7])
  = Some (0, [(Compare ops.S_GT false sample_leaf (Const 4 10), false)]).
Proof. reflexivity. Qed.

(** The example of the specification: two inputs added, stored, read back
    and branched on non-zero. *)
Example two_inputs_added :
  (λ si, constraints (path_ si)) <$>
    si_run lp64_size as_constant sample_input_ops
      (new_SymbolicInterpreter [7; -3; 1])
  = Some [(Compare ops.NEQ true sample_sum (Const 4 0), true)].
Proof. reflexivity. Qed.

(** [Branch] on a symbolic value, on a concrete value, and with nothing or
    two values pending. *)
Example branch_on_symbolic :
  path_ <$> Branch 1 7 true
              (mkSI [mkStackElem (Some sample_leaf) types.INT 7] [] [] ∅ [7]
                 [] 1)
  = Some [mkPathEntry 7 (Some (sample_leaf, true))].
Proof. reflexivity. Qed.

Example branch_on_concrete :
  path_ <$> Branch 1 7 true
              (mkSI [mkStackElem None types.INT 7] [] [] ∅ [7] [] 1)
  = Some [mkPathEntry 7 None].
Proof. reflexivity. Qed.

Example branch_without_value :
  Branch 1 7 true (mkSI [] [] [] ∅ [7] [] 1) = None ∧
  Branch 1 7 true
    (mkSI [mkStackElem None types.INT 7; mkStackElem None types.INT 8]
       [] [] ∅ [7] [] 1) = None.
Proof. split; reflexivity. Qed.

(** The two casts are different entries of the table. *)
Example cast_entries :
  kOpTable_at 27 = Some (TUnary xops.UNSIGNED_CAST) ∧
  kOpTable_at 28 = Some (TUnary xops.SIGNED_CAST).
Proof. split; reflexivity. Qed.

Example sample_round_trip :
  Parse (Serialize sample_execution) = Some sample_execution.
Proof. vm_compute. reflexivity. Qed.

Example empty_round_trip :
  Parse (Serialize (mkExecution [] [] ∅)) = Some (mkExecution [] [] ∅).
Proof. vm_compute. reflexivity. Qed.

Example single_constraint_round_trip :
  Parse (Serialize (execution (mkSI [] [] [] (<[16%N := sample_leaf]> ∅) [7]
                      [mkPathEntry 8 (Some (Compare ops.S_GT false
                                              sample_leaf (Const 4 10),
                                            false))] 1)))
  = Some (mkExecution [7]
            [mkPathEntry 8 (Some (Compare ops.S_GT false sample_leaf
                                    (Const 4 10), false))]
            (<[16%N := sample_leaf]> ∅)).
Proof. vm_compute. reflexivity. Qed.





(** Three fresh inputs among loads, an addition, a store and a branch. *)
Lemma identifiers_in_call_order_sample :
  ∃ si',
    si_run lp64_size as_constant sample_input_ops
      (new_SymbolicInterpreter [7; -3; 1]) = Some si' ∧
    issued lp64_size as_constant sample_input_ops
      (new_SymbolicInterpreter [7; -3; 1])
    = [Some 0%N; Some 1%N; Some 2%N] ∧
    NoDup (issued lp64_size as_constant sample_input_ops
             (new_SymbolicInterpreter [7; -3; 1])) ∧
    num_inputs_ si' = 3%nat.
Proof.
  destruct (si_run lp64_size as_constant sample_input_ops
              (new_SymbolicInterpreter [7; -3; 1])) as [si'|] eqn:Hrun;
    [|vm_compute in Hrun; discriminate].
  exists si'. split; [done|].
  exact (identifiers_in_call_order lp64_size as_constant [7; -3; 1]
           sample_input_ops si' Hrun).
Defined.

(** The sample event sequence contains an input: the flag ends cleared. *)
Lemma pre_symbolic_latch_sample :
  ∃ g,
    run lp64_size as_constant sample_events (__CrestInit [7]) = Some g ∧
    pre_symbolic g = 0 ∧
    (existsb is_input sample_events = false →
       identities_only (path_ (SI g)) ∧ constraints (path_ (SI g)) = []).
Proof.
  destruct (run lp64_size as_constant sample_events (__CrestInit [7]))
    as [g|] eqn:Hrun; [|vm_compute in Hrun; discriminate].
  exists g. split; [done|].
  exact (pre_symbolic_latch lp64_size as_constant [7] sample_events g Hrun).
Defined.

(** After the events that precede any input, a branch hook goes through. *)
Lemma branch_hook_pre_symbolic_sample :
  ∃ g,
    run lp64_size as_constant sample_pre_events (__CrestInit [7]) = Some g ∧
    pre_symbolic g ≠ 0 ∧
    stack_ (SI g) = [] ∧
    (∀ e, skipped e → hook lp64_size as_constant e g = Some g) ∧
    ∀ id bid b, ∃ si1 si2,
      Load lp64_size as_constant id 0%N types.CHAR b (SI g) = Some si1 ∧
      stack_ si1 = [mkStackElem None types.CHAR b] ∧
      Branch id bid (bool_decide (b ≠ 0)) si1 = Some si2 ∧
      __CrestBranch lp64_size as_constant id bid b g
      = Some (mkGlobals si2 (pre_symbolic g)) ∧
      stack_ si2 = [] ∧
      path_ si2 = path_ (SI g) ++ [mkPathEntry bid None].
Proof.
  destruct (run lp64_size as_constant sample_pre_events (__CrestInit [7]))
    as [g|] eqn:Hrun; [|vm_compute in Hrun; discriminate].
  assert (Hpre : pre_symbolic g ≠ 0).
  { vm_compute in Hrun. by simplify_eq. }
  exists g. split_and!; [done|done|..];
    apply (branch_hook_pre_symbolic lp64_size as_constant [7]
             sample_pre_events g Hrun Hpre).
Defined.



(** The sample record is well typed and survives the round trip. *)
Lemma serialization_round_trip_sample :
  typed_execution sample_execution ∧
  Parse (Serialize sample_execution) = Some sample_execution ∧
  ∀ ex', Parse (Serialize sample_execution) = Some ex' →
         Serialize ex' = Serialize sample_execution.
Proof.
  assert (Hty : typed_execution sample_execution).
  { assert (Hm : Forall typed_binding
                   (map_to_list (snapshot sample_execution))).
    { change (Forall typed_binding
                [(24%N, BasicExpr 4 (-3) 1%N); (32%N, sample_sum);
                 (16%N, sample_leaf)]).
      repeat constructor; unfold in_value, in_size, in_var; simpl; lia. }
    unfold typed_execution.
    split_and!; [| | | |exact Hm|]; repeat constructor;
      unfold in_value, in_branch, in_size, in_var, kCallId; simpl; lia. }
  split; [exact Hty|].
  exact (serialization_round_trip sample_execution Hty).
Defined.

(** C9 fails on the sources when the failure shows at [close]: the file
    opens and the stream takes all the bytes, so the assertion after
    [write] passes; flushing the buffer at [close] then fails, which sets
    the failure flag, but nothing looks at the stream any more: the handler
    returns normally and leaves an empty file in place of the record. *)
Theorem close_failure_goes_unnoticed :
  run lp64_size as_constant [EInt 16] (__CrestInit [7])
  = Some one_input_state ∧
  failbit (ofstream_close full_at_close
             (ofstream_write full_at_close
                (Serialize (execution (SI one_input_state)))
                (ofstream_open full_at_close))) = true ∧
  __CrestAtExit full_at_close one_input_state = Returned (Some []) ∧
  length (Serialize (execution (SI one_input_state))) = 61%nat.
Proof. split_and!; reflexivity. Qed.

(** * Further properties of the instrumentation library *)

(** ** Reading the input file *)

Module InputFacts.
Import InputFile.

Lemma digit_char_value d : (d < 10)%N → Byte.to_N (digit_char d) = (48 + d)%N.
Proof. intros Hd. apply CodecFacts.byte_of_N_value. lia. Qed.

Lemma digit_of_char d : (d < 10)%N → digit_of (digit_char d) = Some d.
Proof.
  intros Hd. unfold digit_of. rewrite digit_char_value by done.
  assert (((48 <=? 48 + d) && (48 + d <=? 57))%N = true) as ->.
  { apply andb_true_intro. split; apply N.leb_le; lia. }
  f_equal. lia.
Qed.

Lemma digit_char_not_space d : (d < 10)%N → is_space (digit_char d) = false.
Proof.
  intros Hd. unfold is_space. rewrite digit_char_value by done.
  assert ((48 + d =? 32)%N = false) as -> by (apply N.eqb_neq; lia).
  assert ((48 + d <=? 13)%N = false) as -> by (apply N.leb_gt; lia).
  by rewrite andb_false_r.
Qed.

Lemma digit_char_not_sign d :
  (d < 10)%N → is_minus (digit_char d) = false ∧ is_plus (digit_char d) = false.
Proof.
  intros Hd. unfold is_minus, is_plus. rewrite digit_char_value by done.
  split; apply N.eqb_neq; lia.
Qed.

Lemma skip_space_app ws s :
  Forall (λ c, is_space c = true) ws → skip_space (ws ++ s) = skip_space s.
Proof. induction 1 as [|c ws Hc _ IH]; simpl; [done|]. by rewrite Hc. Qed.

Lemma skip_space_length s : (length (skip_space s) ≤ length s)%nat.
Proof.
  induction s as [|c s IH]; simpl; [done|].
  destruct (is_space c); simpl; lia.
Qed.

Lemma digits_length s :
  (length (digits s).1 + length (digits s).2 = length s)%nat.
Proof.
  induction s as [|c s IH]; simpl; [done|].
  destruct (digit_of c); [|done].
  destruct (digits s) as [ds rest]. simpl in *. lia.
Qed.

Lemma digits_chars ds rest :
  Forall (λ d, (d < 10)%N) ds → no_digit_ahead rest →
  digits ((digit_char <$> ds) ++ rest) = (ds, rest).
Proof.
  intros Hds Hrest. induction Hds as [|d ds Hd _ IH].
  - destruct rest as [|c rest]; simpl in *; [done|]. by rewrite Hrest.
  - rewrite fmap_cons. cbn [app digits].
    rewrite digit_of_char by done. by rewrite IH.
Qed.

(** A successful extraction consumes at least one byte. *)
Lemma extract_shorter s v rest :
  extract s = Some (v, rest) → (length rest < length s)%nat.
Proof.
  unfold extract. intros H.
  pose proof (skip_space_length s) as Hsk.
  destruct (skip_space s) as [|c s'] eqn:Hs; simpl in H; [done|].
  set (p := if is_minus c then (true, s')
            else if is_plus c then (false, s') else (false, c :: s')) in H.
  assert (Hp : (length p.2 ≤ S (length s'))%nat).
  { unfold p. destruct (is_minus c), (is_plus c); simpl; lia. }
  destruct p as [neg s'']. simpl in Hp.
  pose proof (digits_length s'') as Hd.
  destruct (digits s'') as [[|d ds] r]; [done|].
  match type of H with
  | context [decide ?P] => destruct (decide P); [|discriminate H]
  end.
  injection H as Hv Hr. subst rest. simpl in *. lia.
Qed.

Lemma read_loop_fuel fuel : ∀ s,
  (length s ≤ fuel)%nat → read_loop fuel s = read_loop (length s) s.
Proof.
  induction (lt_wf fuel) as [fuel _ IH]. intros s Hs.
  destruct fuel as [|fuel].
  - destruct s; [done|simpl in Hs; lia].
  - destruct s as [|c s]; simpl length; simpl in Hs.
    + simpl. by destruct (extract []) as [[v r]|].
    + cbn [read_loop].
      destruct (extract (c :: s)) as [[v r]|] eqn:He; [|done].
      apply extract_shorter in He. simpl in He.
      rewrite (IH fuel) by lia. by rewrite (IH (length s)) by lia.
Qed.

Lemma read_extract s v rest :
  extract s = Some (v, rest) →
  read_input (Some s) = v :: read_input (Some rest).
Proof.
  intros He. pose proof (extract_shorter _ _ _ He) as Hlen.
  unfold read_input. destruct s as [|c s]; [simpl in Hlen; lia|].
  cbn [length read_loop]. rewrite He. f_equal.
  apply read_loop_fuel. simpl in Hlen. lia.
Qed.

Lemma read_fail s : extract s = None → read_input (Some s) = [].
Proof.
  intros He. unfold read_input. destruct s as [|c s]; [done|].
  cbn [length read_loop]. by rewrite He.
Qed.

Lemma extract_skip ws s :
  Forall (λ c, is_space c = true) ws → extract (ws ++ s) = extract s.
Proof. intros Hws. unfold extract. by rewrite skip_space_app. Qed.

Lemma read_skip ws s :
  Forall (λ c, is_space c = true) ws →
  read_input (Some (ws ++ s)) = read_input (Some s).
Proof.
  intros Hws.
  destruct (extract s) as [[v rest]|] eqn:He.
  - rewrite (read_extract s v rest He).
    apply read_extract. by rewrite extract_skip.
  - rewrite (read_fail s He). apply read_fail. by rewrite extract_skip.
Qed.

Lemma extract_token neg ds rest :
  ds ≠ [] → Forall (λ d, (d < 10)%N) ds → no_digit_ahead rest →
  extract (sign_bytes neg ++ (digit_char <$> ds) ++ rest)
  = if decide (in_value (token_value neg ds))
    then Some (token_value neg ds, rest) else None.
Proof.
  intros Hne Hds Hrest.
  pose proof (digits_chars ds rest Hds Hrest) as Hdig.
  unfold extract. destruct neg; simpl sign_bytes.
  - change (skip_space (["-"%byte] ++ (digit_char <$> ds) ++ rest))
      with ((["-"%byte] ++ (digit_char <$> ds) ++ rest)).
    cbn [app]. change (is_minus "-") with true. cbv iota.
    rewrite Hdig. by destruct ds.
  - destruct ds as [|d ds]; [done|].
    assert (Hd : (d < 10)%N) by (by inversion Hds).
    rewrite fmap_cons in *. cbn [app skip_space] in *.
    rewrite digit_char_not_space by done.
    destruct (digit_char_not_sign d Hd) as [-> ->].
    by rewrite Hdig.
Qed.

(** Decimal digits. *)
Lemma number_from x ds :
  foldl (λ acc d, 10 * acc + d)%N x ds
  = (x * 10 ^ N.of_nat (length ds) + number ds)%N.
Proof.
  unfold number. revert x. induction ds as [|d ds IH]; intros x.
  - cbn [foldl length]. change (N.of_nat 0) with 0%N.
    rewrite N.pow_0_r. lia.
  - cbn [foldl length]. rewrite IH, (IH (10 * 0 + d)%N).
    rewrite Nat2N.inj_succ, N.pow_succ_r'.
    generalize (10 ^ N.of_nat (length ds))%N,
      (foldl (λ acc d0, 10 * acc + d0)%N 0%N ds).
    intros p q. ring.
Qed.

Lemma number_app a b :
  number (a ++ b) = (number a * 10 ^ N.of_nat (length b) + number b)%N.
Proof. unfold number at 1. rewrite foldl_app. apply number_from. Qed.

Lemma decimal_spec fuel : ∀ n acc,
  (n < 10 ^ N.of_nat (S fuel))%N →
  ∃ ds, decimal (S fuel) n acc = ds ++ acc ∧ ds ≠ [] ∧
        Forall (λ d, (d < 10)%N) ds ∧ number ds = n.
Proof.
  induction fuel as [|fuel IH]; intros n acc Hn.
  - change (10 ^ N.of_nat 1)%N with 10%N in Hn.
    cbn [decimal]. apply N.ltb_lt in Hn as Hlt. rewrite Hlt.
    exists [n].
    split_and!; [done|done|by repeat constructor|unfold number; simpl; lia].
  - cbn [decimal]. destruct (n <? 10)%N eqn:Hlt.
    + apply N.ltb_lt in Hlt. exists [n].
      split_and!; [done|done|by repeat constructor|unfold number; simpl; lia].
    + apply N.ltb_ge in Hlt.
      rewrite Nat2N.inj_succ, N.pow_succ_r' in Hn.
      destruct (IH (n `div` 10)%N ((n `mod` 10)%N :: acc))
        as (ds & Heq & Hne & Hds & Hnum).
      * apply N.Div0.div_lt_upper_bound. lia.
      * exists (ds ++ [(n `mod` 10)%N]). split_and!.
        -- change (decimal (S fuel) (n `div` 10)%N ((n `mod` 10)%N :: acc)
                   = (ds ++ [(n `mod` 10)%N]) ++ acc).
           by rewrite Heq, <- app_assoc.
        -- by destruct ds.
        -- apply Forall_app. split; [done|]. repeat constructor.
           apply N.mod_lt. lia.
        -- rewrite number_app, Hnum. unfold number. simpl.
           pose proof (N.div_mod n 10). lia.
Qed.

Lemma decimal_digits_spec n :
  decimal_digits n ≠ [] ∧ Forall (λ d, (d < 10)%N) (decimal_digits n) ∧
  number (decimal_digits n) = n.
Proof.
  unfold decimal_digits.
  destruct (decimal_spec (N.to_nat (N.log2 n)) n []) as (ds & -> & ? & ? & ?).
  - rewrite Nat2N.inj_succ, N2Nat.id.
    destruct (decide (n = 0%N)) as [->|Hn]; [done|].
    pose proof (N.log2_spec n) as [_ Hlog]; [lia|].
    eapply N.lt_le_trans; [exact Hlog|].
    apply N.pow_le_mono_l. lia.
  - by rewrite app_nil_r.
Qed.

Lemma newline_space : is_space "010"%byte = true.
Proof. reflexivity. Qed.

Lemma token_of_value v :
  token_value (bool_decide (v < 0)) (decimal_digits (Z.abs_N v)) = v.
Proof.
  destruct (decimal_digits_spec (Z.abs_N v)) as (_ & _ & Hnum).
  unfold token_value. rewrite Hnum. case_bool_decide; lia.
Qed.

Lemma render_value_token v :
  render_value v
  = sign_bytes (bool_decide (v < 0))
      ++ (digit_char <$> decimal_digits (Z.abs_N v)).
Proof. unfold render_value, sign_bytes. by case_bool_decide; case_decide. Qed.

Lemma extract_value v rest :
  in_value v → no_digit_ahead rest →
  extract (render_value v ++ rest) = Some (v, rest).
Proof.
  intros Hv Hrest.
  destruct (decimal_digits_spec (Z.abs_N v)) as (Hne & Hds & _).
  rewrite render_value_token, <- app_assoc.
  rewrite extract_token by done.
  rewrite token_of_value. by rewrite decide_True.
Qed.

Lemma read_render vs rest :
  Forall in_value vs →
  read_input (Some (render vs ++ rest)) = vs ++ read_input (Some rest).
Proof.
  induction 1 as [|v vs Hv _ IH]; [done|].
  unfold render. rewrite fmap_cons, concat_cons. fold (render vs).
  rewrite <- !app_assoc.
  rewrite (read_extract _ v (["010"%byte] ++ render vs ++ rest)).
  - rewrite read_skip by (repeat constructor). by rewrite IH.
  - by apply extract_value.
Qed.

Lemma extract_junk c rest :
  is_space c = false → digit_of c = None →
  (is_minus c || is_plus c = true → no_digit_ahead rest) →
  extract (c :: rest) = None.
Proof.
  intros Hsp Hdig Hsign. unfold extract. cbn [skip_space]. rewrite Hsp.
  destruct (is_minus c) eqn:Hm; [|destruct (is_plus c) eqn:Hp].
  - destruct rest as [|c' rest]; [done|].
    cbn [digits]. simpl in Hsign. by rewrite Hsign.
  - destruct rest as [|c' rest]; [done|].
    cbn [digits]. simpl in Hsign. by rewrite Hsign.
  - cbn [digits]. by rewrite Hdig.
Qed.

End InputFacts.

(** X1: the loop of [__CrestInit] reads one token: white space, an optional
    minus sign and decimal digits (leading zeros allowed) that something
    other than a digit follows. When the number fits [long long] it is
    pushed and the loop goes on with what follows the digits. *)
Theorem input_token ws neg ds rest :
  Forall (λ c, InputFile.is_space c = true) ws →
  ds ≠ [] → Forall (λ d, (d < 10)%N) ds →
  InputFile.no_digit_ahead rest →
  in_value (InputFile.token_value neg ds) →
  InputFile.read_input
    (Some (ws ++ InputFile.sign_bytes neg
              ++ (InputFile.digit_char <$> ds) ++ rest))
  = InputFile.token_value neg ds :: InputFile.read_input (Some rest).
Proof.
  intros Hws Hne Hds Hrest Hv.
  rewrite InputFacts.read_skip by done.
  apply InputFacts.read_extract.
  rewrite InputFacts.extract_token by done. by rewrite decide_True.
Qed.

(** X2: reading is the inverse of writing the values in decimal, one per
    line: the loop of [__CrestInit] gives back the very vector, and goes on
    with whatever follows the last line. *)
Theorem input_round_trip vs :
  Forall in_value vs →
  InputFile.read_input (Some (InputFile.render vs)) = vs ∧
  ∀ rest,
    InputFile.read_input (Some (InputFile.render vs ++ rest))
    = vs ++ InputFile.read_input (Some rest).
Proof.
  intros Hvs. split; [|intros rest; by apply InputFacts.read_render].
  rewrite <- (app_nil_r (InputFile.render vs)).
  rewrite InputFacts.read_render by done. by rewrite app_nil_r.
Qed.

(** X3: the loop ends at the first byte that starts no number: neither white
    space nor a digit, or a sign no digit follows. The values before it are
    kept; whatever the file holds after it is never read. *)
Theorem input_stops_at_malformed vs ws c rest :
  Forall in_value vs →
  Forall (λ c, InputFile.is_space c = true) ws →
  InputFile.is_space c = false → InputFile.digit_of c = None →
  (InputFile.is_minus c || InputFile.is_plus c = true →
   InputFile.no_digit_ahead rest) →
  InputFile.read_input (Some (InputFile.render vs ++ ws ++ c :: rest)) = vs.
Proof.
  intros Hvs Hws Hsp Hdig Hsign.
  rewrite InputFacts.read_render by done.
  rewrite InputFacts.read_skip by done.
  rewrite InputFacts.read_fail; [by rewrite app_nil_r|].
  by apply InputFacts.extract_junk.
Qed.

(** X4: a number that does not fit [long long] ends the loop as well: no
    value is pushed for it, neither a wrapped nor a clamped one, and the
    values after it are lost. *)
Theorem input_stops_at_overflow vs ws neg ds rest :
  Forall in_value vs →
  Forall (λ c, InputFile.is_space c = true) ws →
  Forall (λ d, (d < 10)%N) ds →
  InputFile.no_digit_ahead rest →
  ¬ in_value (InputFile.token_value neg ds) →
  InputFile.read_input
    (Some (InputFile.render vs ++ ws ++ InputFile.sign_bytes neg
             ++ (InputFile.digit_char <$> ds) ++ rest)) = vs.
Proof.
  intros Hvs Hws Hds Hrest Hv.
  assert (Hne : ds ≠ []).
  { intros ->. apply Hv. unfold in_value. by destruct neg. }
  rewrite InputFacts.read_render by done.
  rewrite InputFacts.read_skip by done.
  rewrite InputFacts.read_fail; [by rewrite app_nil_r|].
  rewrite InputFacts.extract_token by done. by rewrite decide_False.
Qed.

(** ** The exit handler *)

(** X11: how [__CrestAtExit] ends, and what it leaves.  When it returns,
    the strings got their memory, the file was opened and, if the record
    went straight to the file, the file took all of it; the file then holds
    a prefix of the record: all of it when it went straight to the file or
    the flush at [close] goes through, and only the bytes flushed when that
    fails.  When it aborts, the strings did not get their memory or the
    file could not be opened, and then no file is written, or the record
    went straight to the file, which took only part of it. *)
Theorem exit_outcome env g :
  let buff := Serialize (execution (SI g)) in
  match __CrestAtExit env g with
  | Returned f =>
      enough_memory env = true ∧ can_open env = true ∧
      ((chunk env ≤ length buff)%nat →
       ∀ n, write_room env = Some n → (length buff ≤ n)%nat) ∧
      f = Some (if decide (length buff < chunk env)%nat
                then match flush_room env with
                     | None => buff
                     | Some n => take n buff
                     end
                else buff) ∧
      ∃ bs, f = Some bs ∧ bs `prefix_of` buff
  | Aborted f =>
      (enough_memory env = false ∧ f = None) ∨
      (can_open env = false ∧ f = None) ∨
      ((chunk env ≤ length buff)%nat ∧
       ∃ n, write_room env = Some n ∧ (n < length buff)%nat ∧
            f = Some (take n buff))
  end.
Proof.
  cbv zeta. unfold __CrestAtExit, ofstream_open, ofstream_write,
    ofstream_close, accept.
  generalize (Serialize (execution (SI g))). intros buff.
  destruct (enough_memory env) eqn:Hmem; [|by left].
  destruct (can_open env) eqn:Hopen; simpl; [|by right; left].
  destruct (decide (length buff < chunk env)%nat) as [Hc|Hc]; simpl.
  - split; [done|]. split; [done|]. split; [lia|].
    destruct (flush_room env) as [k|]; simpl;
      (split; [done|]); eexists; (split; [done|]);
      [apply prefix_take|done].
  - destruct (write_room env) as [n|] eqn:Hw; simpl.
    + case_bool_decide as Hn; simpl.
      * right. right. split; [lia|]. by exists n.
      * assert (Htake : take n buff = buff) by (apply take_ge; lia).
        rewrite Htake.
        split; [done|]. split; [done|].
        split; [intros _ ? [= <-]; lia|].
        destruct (flush_room env) as [k|]; simpl;
          rewrite ?take_nil, ?app_nil_r;
          (split; [done|]); by eexists.
    + split; [done|]. split; [done|]. split; [done|].
      destruct (flush_room env) as [k|]; simpl;
        rewrite ?take_nil, ?app_nil_r;
        (split; [done|]); by eexists.
Qed.

(** ** The further statements on sample data *)

(** Blank and tab, a minus sign, a number with a leading zero, and a second
    line after it. *)
Lemma input_token_sample :
  let ws := [" "%byte; "009"%byte] in
  let ds := [0; 4; 2]%N in
  let rest := ["010"%byte; "7"%byte] in
  InputFile.read_input
    (Some (ws ++ InputFile.sign_bytes true
              ++ (InputFile.digit_char <$> ds) ++ rest))
  = [-42; 7].
Proof.
  intros ws ds rest.
  apply (input_token ws true ds rest).
  - by repeat constructor.
  - done.
  - repeat constructor; lia.
  - reflexivity.
  - unfold in_value. simpl. lia.
Defined.

(** The extreme values of [long long] among others. *)
Lemma input_round_trip_sample :
  let vs := [7; -3; 0; 9223372036854775807; -9223372036854775808] in
  Forall in_value vs ∧
  InputFile.read_input (Some (InputFile.render vs)) = vs ∧
  ∀ rest,
    InputFile.read_input (Some (InputFile.render vs ++ rest))
    = vs ++ InputFile.read_input (Some rest).
Proof.
  intros vs.
  assert (Hvs : Forall in_value vs)
    by (repeat constructor; unfold in_value; lia).
  split; [exact Hvs|]. exact (input_round_trip vs Hvs).
Defined.

(** Two lines, then a letter: the digit after the letter is not read. *)
Lemma input_stops_at_malformed_sample :
  InputFile.read_input
    (Some (InputFile.render [12; 5]
             ++ [" "%byte] ++ "a"%byte :: ["9"%byte]))
  = [12; 5].
Proof.
  apply (input_stops_at_malformed [12; 5] [" "%byte] "a"%byte ["9"%byte]).
  - repeat constructor; unfold in_value; lia.
  - by repeat constructor.
  - reflexivity.
  - reflexivity.
  - discriminate.
Defined.

(** [2^63] on the second line: the third line is lost. *)
Lemma input_stops_at_overflow_sample :
  let ds := [9; 2; 2; 3; 3; 7; 2; 0; 3; 6; 8; 5; 4; 7; 7; 5; 8; 0; 8]%N in
  InputFile.token_value false ds = 2 ^ 63 ∧
  InputFile.read_input
    (Some (InputFile.render [1] ++ [] ++ InputFile.sign_bytes false
             ++ (InputFile.digit_char <$> ds) ++ ["010"%byte; "2"%byte]))
  = [1].
Proof.
  intros ds. split; [reflexivity|].
  apply (input_stops_at_overflow [1] [] false ds ["010"%byte; "2"%byte]).
  - repeat constructor; unfold in_value; lia.
  - constructor.
  - repeat constructor; lia.
  - reflexivity.
  - unfold in_value. change (InputFile.token_value false ds) with (2 ^ 63).
    lia.
Defined.

(** A run that crosses the first input: the load before it is dropped, the
    branch before it is there with its load, and the branches and the
    input are those of the hook calls. *)
Lemma unconditional_calls_sample :
  trace 1 sample_events
  = Some [OLoad 2 0%N types.CHAR 1; OBranch 2 7 true;
          ONewInput types.INT 16%N;
          OLoad 3 16%N types.INT 7; OLoad 4 24%N types.INT 10;
          OApplyCompareOp 5 ops.S_GT types.INT 0; OBranch 6 8 false] ∧
  List.filter unconditional
    [OLoad 2 0%N types.CHAR 1; OBranch 2 7 true;
     ONewInput types.INT 16%N;
     OLoad 3 16%N types.INT 7; OLoad 4 24%N types.INT 10;
     OApplyCompareOp 5 ops.S_GT types.INT 0; OBranch 6 8 false]
  = [OBranch 2 7 true; ONewInput types.INT 16%N; OBranch 6 8 false].
Proof.
  assert (Htr : trace 1 sample_events
    = Some [OLoad 2 0%N types.CHAR 1; OBranch 2 7 true;
            ONewInput types.INT 16%N;
            OLoad 3 16%N types.INT 7; OLoad 4 24%N types.INT 10;
            OApplyCompareOp 5 ops.S_GT types.INT 0; OBranch 6 8 false])
    by reflexivity.
  split; [exact Htr|].
  exact (unconditional_calls sample_events 1 _ Htr).
Defined.

(** Two branch hooks with different non-zero values, and the pointer hook
    called with the opcodes of [ADD] and of [EQ]: different calls, one
    interpreter operation. *)
Lemma op_of_injective_sample :
  same_call (EBranch 1 2 5) (EBranch 1 2 (-1)) ∧
  EPtrApply2 1 __CREST_ADD 4 9 ≠ EPtrApply2 1 __CREST_EQ 4 9 ∧
  op_of (EPtrApply2 1 __CREST_ADD 4 9) = Some (OApplyBinPtrOp 1 0 4 9) ∧
  op_of (EPtrApply2 1 __CREST_EQ 4 9) = Some (OApplyBinPtrOp 1 0 4 9) ∧
  same_call (EPtrApply2 1 __CREST_ADD 4 9) (EPtrApply2 1 __CREST_EQ 4 9).
Proof.
  split_and!; [|discriminate|reflexivity|reflexivity|].
  - apply (op_of_injective (EBranch 1 2 5) (EBranch 1 2 (-1))
             (OBranch 1 2 true)); reflexivity.
  - apply (op_of_injective (EPtrApply2 1 __CREST_ADD 4 9)
             (EPtrApply2 1 __CREST_EQ 4 9) (OApplyBinPtrOp 1 0 4 9));
      reflexivity.
Defined.
